(** * Thumbnail generation and cleanup: a shallow embedding of
      [backend/app/image_processor.py]

    The module derives thumbnails and a carousel copy from an uploaded
    image and removes them again.  Paths are [pathlib] pure POSIX paths,
    the dictionary returned by [get_thumbnail_paths] is a finite map,
    the filesystem and the logger are threaded through a small
    state-and-exception monad, and the imaging library is an interface
    with the part of its contract the module relies on. *)

From Stdlib Require Import ZArith String Ascii.
From stdpp Require Import gmap strings list pretty.

Local Open Scope Z_scope.

(** ** Strings

    A Python [str] is kept as its UTF-8 bytes.  The characters the module
    looks for (the separator and the dot) are ASCII, so searching bytes
    and searching code points agree. *)

Module Str.

Definition sep : ascii := "/"%char.
Definition dot : ascii := "."%char.

(** [s.split(c)] for a one-character separator. *)
Fixpoint split (c : ascii) (s : string) : list string :=
  match s with
  | EmptyString => [""]
  | String a s' =>
      if Ascii.eqb a c then "" :: split c s'
      else match split c s' with
           | x :: xs => String a x :: xs
           | [] => [String a ""]
           end
  end.

(** [c.join(l)]. *)
Fixpoint join (c : ascii) (l : list string) : string :=
  match l with
  | [] => ""
  | [x] => x
  | x :: l' => x +:+ String c (join c l')
  end.

(** [c in s]. *)
Fixpoint contains (c : ascii) (s : string) : bool :=
  match s with
  | EmptyString => false
  | String a s' => Ascii.eqb a c || contains c s'
  end.

(** [s.rfind(c)] where [i] is the index of the head of [s]; [-1] when
    [c] does not occur. *)
Fixpoint rfind_from (c : ascii) (s : string) (i : Z) : Z :=
  match s with
  | EmptyString => -1
  | String a s' =>
      let r := rfind_from c s' (i + 1) in
      if 0 <=? r then r else if Ascii.eqb a c then i else -1
  end.

Definition rfind (c : ascii) (s : string) : Z := rfind_from c s 0.

Definition len (s : string) : Z := Z.of_nat (String.length s).

(** The slices [s[:i]] and [s[i:]] for [0 <= i]. *)
Definition take (i : Z) (s : string) : string :=
  String.substring 0 (Z.to_nat i) s.
Definition drop (i : Z) (s : string) : string :=
  String.substring (Z.to_nat i) (String.length s - Z.to_nat i) s.

(** [s.lower()] on the ASCII letters; no character outside ASCII
    lowers to a letter of the extensions the module compares with. *)
Definition lower_char (a : ascii) : ascii :=
  let n := nat_of_ascii a in
  if ((65 <=? n) && (n <=? 90))%nat then ascii_of_nat (n + 32) else a.

Fixpoint lower (s : string) : string :=
  match s with
  | EmptyString => ""
  | String a s' => String (lower_char a) (lower s')
  end.

End Str.

(** ** Pure POSIX paths ([pathlib.PurePosixPath])

    A path is its root (empty, one slash, or two slashes) and the list of
    its components. *)

Record PurePath := MkPath { root : string; tail : list string }.

Global Instance PurePath_eq_dec : EqDecision PurePath.
Proof. solve_decision. Defined.

Global Instance PurePath_countable : Countable PurePath.
Proof.
  apply (inj_countable' (λ p, (root p, tail p)) (λ '(r, t), MkPath r t)).
  by intros [].
Defined.

Module Path.

(** [posixpath.splitroot]: no leading slash, exactly two, or one (three
    and more collapse to one). *)
Definition splitroot (p : string) : string * string :=
  match p with
  | String a r =>
      if Ascii.eqb a Str.sep then
        match r with
        | String b r2 =>
            if Ascii.eqb b Str.sep then
              match r2 with
              | String c _ =>
                  if Ascii.eqb c Str.sep then ("/", r) else ("//", r2)
              | EmptyString => ("//", r2)
              end
            else ("/", r)
        | EmptyString => ("/", r)
        end
      else ("", p)
  | EmptyString => ("", p)
  end.

Definition keep_part (x : string) : bool :=
  negb (String.eqb x "") && negb (String.eqb x ".").

(** [Path(s)]. *)
Definition of_string (s : string) : PurePath :=
  let '(r, rel) := splitroot s in
  MkPath r (List.filter keep_part (Str.split Str.sep rel)).

(** [str(p)]. *)
Definition str (p : PurePath) : string :=
  let s := root p +:+ Str.join Str.sep (tail p) in
  if String.eqb s "" then "." else s.

Definition is_absolute (p : PurePath) : bool := negb (String.eqb (root p) "").

(** [p.name], [p.suffix], [p.stem] and [p.parent].  A suffix is what
    follows the last dot of the name, unless that dot is the first or the
    last character (pathlib up to Python 3.13). *)
Definition name (p : PurePath) : string := List.last (tail p) "".

Definition suffix (p : PurePath) : string :=
  let n := name p in
  let i := Str.rfind Str.dot n in
  if (0 <? i) && (i <? Str.len n - 1) then Str.drop i n else "".

Definition stem (p : PurePath) : string :=
  let n := name p in
  let i := Str.rfind Str.dot n in
  if (0 <? i) && (i <? Str.len n - 1) then Str.take i n else n.

Definition parent (p : PurePath) : PurePath :=
  MkPath (root p) (List.removelast (tail p)).

(** [a / b] for a path [b], and for a string. *)
Definition joinpath (a b : PurePath) : PurePath :=
  if is_absolute b then b else MkPath (root a) (tail a ++ tail b).

Definition join_str (a : PurePath) (s : string) : PurePath :=
  joinpath a (of_string s).

(** The class invariant of a path object: what [of_string] builds. *)
Definition good_part (x : string) : bool :=
  keep_part x && negb (Str.contains Str.sep x).

Definition wf (p : PurePath) : bool :=
  (String.eqb (root p) "" || String.eqb (root p) "/" || String.eqb (root p) "//")
  && forallb good_part (tail p).

End Path.

Notation "a </> b" := (Path.joinpath a b) (at level 40, left associativity).
Notation "a </: s" := (Path.join_str a s) (at level 40, left associativity).


(** ** Configuration *)

(** [THUMBNAIL_SIZES]: (width, height, name suffix).  A height may be
    [None]; the constant [CAROUSEL_SIZE] has none. *)
Definition THUMBNAIL_SIZES : list (Z * option Z * string) :=
  [ (110, Some 110, "thumb-sm");
    (220, Some 220, "thumb-md");
    (165, Some 165, "thumb-detail");
    (330, Some 330, "thumb-detail-2x") ].

Definition CAROUSEL_SIZE : Z * option Z := (1000, None).

(** ** [get_thumbnail_paths] *)

(** The f-string [f"{stem}-{suffix}.{fmt}"]. *)
Definition thumb_name (stem suffix fmt : string) : string :=
  stem +:+ "-" +:+ suffix +:+ "." +:+ fmt.

(** [thumbs[fmt].append(p)]: a missing key raises [KeyError], here [None]. *)
Definition thumbs_append (thumbs : gmap string (list string)) (fmt p : string)
    : option (gmap string (list string)) :=
  match thumbs !! fmt with
  | Some l => Some (<[fmt := l ++ [p]]> thumbs)
  | None => None
  end.

(** A [for] loop whose body may raise. *)
Fixpoint for_opt {A S : Type} (l : list A) (body : S → A → option S) (s : S)
    : option S :=
  match l with
  | [] => Some s
  | x :: l' =>
      match body s x with
      | Some s' => for_opt l' body s'
      | None => None
      end
  end.

Definition default_formats : list string := ["webp"; "avif"; "jpg"].

Definition get_thumbnail_paths (original_path : string)
    (with_formats : option (list string)) : option (gmap string (list string)) :=
  let with_formats :=
    match with_formats with None => default_formats | Some l => l end in
  let path_obj := Path.of_string original_path in
  let stem := Path.stem path_obj in
  let parent := Path.parent path_obj in
  let thumbs : gmap string (list string) :=
    foldl (λ m fmt, <[fmt := []]> m) ∅ with_formats in
  for_opt THUMBNAIL_SIZES
    (λ thumbs '(width, height, suffix),
       for_opt with_formats
         (λ thumbs fmt,
            let thumb_name := thumb_name stem suffix fmt in
            let thumb_path := parent </: thumb_name in
            thumbs_append thumbs fmt (Path.str thumb_path))
         thumbs)
    thumbs.

(** ** The imaging library (Pillow)

    The operations the module calls on an image, as an interface.  An
    in-place update ([thumbnail], [paste]) returns the updated image, so
    [copy] is the identity.  [getpixel] reads the bands of one pixel. *)

Class Pillow := {
  image : Type;
  mode : image → string;
  size : image → Z * Z;
  getpixel : image → Z * Z → list Z;
  convert : image → string → image;
  new_image : string → Z * Z → list Z → image;
  paste : image → image → option image → image;
  split : image → list image;
  thumbnail : image → Z * Z → image;
}.

Definition width `{Pillow} (im : image) : Z := (size im).1.
Definition height `{Pillow} (im : image) : Z := (size im).2.
Definition copy `{Pillow} (im : image) : image := im.

(** The alpha band of a pixel is its last band. *)
Definition alpha_of (px : list Z) : Z := List.last px 0.

(** A thumbnail has the aspect ratio of its source up to the rounding of
    one dimension to whole pixels. *)
Definition same_aspect (src dst : Z * Z) : Prop :=
  Z.abs (dst.1 * src.2 - dst.2 * src.1) < Z.max src.1 src.2.

Definition fits_in (sz box : Z * Z) : Prop := sz.1 ≤ box.1 ∧ sz.2 ≤ box.2.

(** The part of the library's contract the module relies on. *)
Class PillowLaws `{Pillow} : Prop := {
  convert_mode im m : mode (convert im m) = m;
  convert_size im m : size (convert im m) = size im;
  convert_LA_RGBA im xy l a :
    mode im = "LA" → getpixel im xy = [l; a] →
    getpixel (convert im "RGBA") xy = [l; l; l; a];
  new_image_mode m sz c : mode (new_image m sz c) = m;
  new_image_size m sz c : size (new_image m sz c) = sz;
  new_image_pixel m sz c xy : getpixel (new_image m sz c) xy = c;
  paste_mode bg im mask : mode (paste bg im mask) = mode bg;
  paste_size bg im mask : size (paste bg im mask) = size bg;
  paste_masked_out bg im mask xy :
    getpixel mask xy = [0] →
    getpixel (paste bg im (Some mask)) xy = getpixel bg xy;
  split_RGBA im :
    mode im = "RGBA" →
    ∃ bands a, split im = bands ++ [a]
      ∧ ∀ xy, getpixel a xy = [alpha_of (getpixel im xy)];
  thumbnail_mode im box : mode (thumbnail im box) = mode im;
  thumbnail_within im box :
    fits_in (size im) box → thumbnail im box = im;
  thumbnail_fits im box :
    0 < width im → 0 < height im → 0 < box.1 → 0 < box.2 →
    fits_in (size (thumbnail im box)) box
    ∧ fits_in (size (thumbnail im box)) (size im)
    ∧ 0 < width (thumbnail im box) ∧ 0 < height (thumbnail im box)
    ∧ same_aspect (size im) (size (thumbnail im box));
}.

(** ** The filesystem, the logger and exceptions *)

Inductive level := INFO | WARNING | ERROR.

Global Instance level_eq_dec : EqDecision level.
Proof. solve_decision. Defined.

(** The keyword arguments of [Image.save]. *)
Record save_params := SaveParams {
  quality : Z;
  method : option Z;
  optimize : bool;
}.

(** The environment a call runs in: whether the import of the imaging
    library succeeded, and which encoder and unlink calls raise, with the
    text of the exception. *)
Record env := Env {
  HAS_PILLOW : bool;
  save_error : string → PurePath → option string;
  unlink_error : PurePath → option string;
}.

Inductive outcome (A : Type) :=
  | Return (a : A)
  | Raise (e : string).
Global Arguments Return {A} a.
Global Arguments Raise {A} e.

Section effects.
Context `{Pillow}.

(** A file is an upload (with the image it decodes to, if it decodes) or
    an image written by [Image.save]. *)
Inductive file :=
  | Upload (decoded : option image)
  | Encoded (format : string) (params : save_params) (im : image).

Record world := World {
  files : gmap PurePath file;
  logged : list (level * string);
}.

Definition M (A : Type) : Type := env → world → outcome A * world.

Global Instance M_ret : MRet M := λ A a _ w, (Return a, w).

Global Instance M_bind : MBind M := λ A B k m e w,
  match m e w with
  | (Return a, w') => k a e w'
  | (Raise x, w') => (Raise x, w')
  end.

(** [try: m except Exception as e: h e]. *)
Definition try_except {A} (m : M A) (h : string → M A) : M A := λ e w,
  match m e w with
  | (Return a, w') => (Return a, w')
  | (Raise x, w') => h x e w'
  end.

Definition lift {A} (o : outcome A) : M A := λ _ w, (o, w).

Definition logger (lv : level) (msg : string) : M unit := λ _ w,
  (Return (), World (files w) (logged w ++ [(lv, msg)])).

Definition has_pillow : M bool := λ e w, (Return (HAS_PILLOW e), w).

(** [p.exists()]. *)
Definition path_exists (p : PurePath) : M bool := λ _ w,
  (Return (bool_decide (is_Some (files w !! p))), w).

(** [p.unlink()]. *)
Definition unlink (p : PurePath) : M unit := λ e w,
  match files w !! p with
  | None => (Raise "No such file or directory", w)
  | Some _ =>
      match unlink_error e p with
      | Some x => (Raise x, w)
      | None => (Return (), World (delete p (files w)) (logged w))
      end
  end.

(** [Image.open(p)], with the decoding it defers. *)
Definition Image_open (p : PurePath) : M image := λ _ w,
  match files w !! p with
  | Some (Upload (Some im)) => (Return im, w)
  | Some (Upload None) => (Raise "cannot identify image file", w)
  | Some (Encoded _ _ im) => (Return im, w)
  | None => (Raise "No such file or directory", w)
  end.

(** [im.save(p, format, **params)]: a failing encoder leaves no file. *)
Definition save (im : image) (p : PurePath) (format : string)
    (params : save_params) : M unit := λ e w,
  match save_error e format p with
  | Some x => (Raise x, w)
  | None => (Return (), World (<[p := Encoded format params im]> (files w)) (logged w))
  end.

(** A [for] loop, and one that updates a local variable. *)
Fixpoint for_each {A} (l : list A) (body : A → M unit) : M unit :=
  match l with
  | [] => mret ()
  | x :: l' => body x ;; for_each l' body
  end.

Fixpoint for_acc {A S} (l : list A) (body : S → A → M S) (s : S) : M S :=
  match l with
  | [] => mret s
  | x :: l' => s' ← body s x; for_acc l' body s'
  end.

End effects.

(** ** [is_image_processable] *)

Definition processable_exts : list string :=
  [".jpg"; ".jpeg"; ".png"; ".gif"; ".webp"; ".bmp"; ".tiff"].

Definition is_image_processable (file_path : PurePath) : bool :=
  bool_decide (Str.lower (Path.suffix file_path) ∈ processable_exts).

(** ** [generate_thumbnails] *)

Section thumbnails.
Context `{Pillow}.

(** [original_path = static_dir / original_path] unless absolute. *)
Definition resolve (original_path static_dir : PurePath) : PurePath :=
  if negb (Path.is_absolute original_path) then static_dir </> original_path
  else original_path.

(** [img.split()[-1]]. *)
Definition last_band (im : image) : outcome image :=
  match last (split im) with
  | Some b => Return b
  | None => Raise "tuple index out of range"
  end.

(** The colour normalisation at the head of the [try] block: the image
    all resizing starts from. *)
Definition normalize (img : image) : outcome image :=
  if bool_decide (mode img ∈ ["RGBA"; "LA"; "P"]) then
    let img := if String.eqb (mode img) "P" then convert img "RGBA" else img in
    if bool_decide (mode img ∈ ["RGBA"; "LA"]) then
      let background := new_image "RGB" (size img) [255; 255; 255] in
      let img := if String.eqb (mode img) "LA" then convert img "RGBA" else img in
      if String.eqb (mode img) "RGBA" then
        match last_band img with
        | Return mask => Return (paste background img (Some mask))
        | Raise x => Raise x
        end
      else Return (paste background img None)
    else Return img
  else if negb (String.eqb (mode img) "RGB") then Return (convert img "RGB")
  else Return img.

(** [(width, height) if height else (width, width)]. *)
Definition thumbnail_box (width : Z) (height : option Z) : Z * Z :=
  match height with
  | Some h => if h =? 0 then (width, width) else (width, h)
  | None => (width, width)
  end.

Definition carousel_image (img : image) : image :=
  let img_carousel := copy img in
  if (width img >? 1000) || (height img >? 1000)
  then thumbnail img_carousel (1000, 1000)
  else img_carousel.

Definition carousel_path (original_path : PurePath) : PurePath :=
  Path.parent original_path </: (Path.stem original_path +:+ "-carousel.webp").

Definition thumb_path (original_path : PurePath) (suffix fmt : string) : PurePath :=
  Path.parent original_path </: thumb_name (Path.stem original_path) suffix fmt.

Definition webp_carousel : save_params := SaveParams 85 (Some 6) false.
Definition webp_thumb : save_params := SaveParams 80 (Some 6) false.
Definition avif_thumb : save_params := SaveParams 75 None false.
Definition jpeg_thumb : save_params := SaveParams 80 None true.

(** The body of the loop over [THUMBNAIL_SIZES]. *)
Definition generate_size (img : image) (original_path : PurePath)
    (keep_original_format : bool) (entry : Z * option Z * string) : M unit :=
  let '(width, height, suffix) := entry in
  let img_thumb := copy img in
  let img_thumb := thumbnail img_thumb (thumbnail_box width height) in
  let webp_path := thumb_path original_path suffix "webp" in
  save img_thumb webp_path "WEBP" webp_thumb;;
  logger INFO ("Generated thumbnail: " +:+ Path.str webp_path);;
  try_except
    (let avif_path := thumb_path original_path suffix "avif" in
     save img_thumb avif_path "AVIF" avif_thumb;;
     logger INFO ("Generated thumbnail: " +:+ Path.str avif_path))
    (λ e, logger WARNING ("Could not save AVIF (pillow-heif needed): " +:+ e));;
  if keep_original_format then
    let jpg_path := thumb_path original_path suffix "jpg" in
    save img_thumb jpg_path "JPEG" jpeg_thumb;;
    logger INFO ("Generated thumbnail: " +:+ Path.str jpg_path)
  else mret ().

(** The [try] block. *)
Definition generate_all (original_path : PurePath)
    (keep_original_format : bool) : M bool :=
  img ← Image_open original_path;
  img ← lift (normalize img);
  let img_carousel := carousel_image img in
  let carousel_path := carousel_path original_path in
  save img_carousel carousel_path "WEBP" webp_carousel;;
  logger INFO ("Generated carousel version: " +:+ Path.str carousel_path);;
  for_each THUMBNAIL_SIZES (generate_size img original_path keep_original_format);;
  logger INFO ("Successfully generated all thumbnails for: "
               +:+ Path.str original_path);;
  mret true.

Definition generate_thumbnails (original_path static_dir : PurePath)
    (keep_original_format : bool) : M bool :=
  has ← has_pillow;
  if negb has then
    logger WARNING "Pillow not installed. Skipping thumbnail generation.";;
    mret false
  else
    let original_path := resolve original_path static_dir in
    found ← path_exists original_path;
    if negb found then
      logger ERROR ("Original image not found: " +:+ Path.str original_path);;
      mret false
    else if negb (is_image_processable original_path) then
      logger WARNING ("Image type not processable (e.g., SVG): "
                      +:+ Path.str original_path);;
      mret false
    else
      try_except
        (generate_all original_path keep_original_format)
        (λ e,
           logger ERROR ("Error generating thumbnails for "
                         +:+ Path.str original_path +:+ ": " +:+ e);;
           mret false).

(** ** [delete_thumbnails] and [delete_original_and_thumbnails] *)

(** One existence test and guarded unlink of the cleanup; [deleted_count]
    is passed through. *)
Definition delete_carousel (carousel_path : PurePath) (deleted_count : Z) : M Z :=
  found ← path_exists carousel_path;
  if (found : bool) then
    try_except
      (unlink carousel_path;;
       let deleted_count := deleted_count + 1 in
       logger INFO ("Deleted carousel version: " +:+ Path.str carousel_path);;
       mret deleted_count)
      (λ e,
         logger ERROR ("Error deleting carousel version: " +:+ e);;
         mret deleted_count)
  else mret deleted_count.

Definition delete_thumb (thumb_path : PurePath) (deleted_count : Z) : M Z :=
  found ← path_exists thumb_path;
  if (found : bool) then
    try_except
      (unlink thumb_path;;
       let deleted_count := deleted_count + 1 in
       logger INFO ("Deleted thumbnail: " +:+ Path.str thumb_path);;
       mret deleted_count)
      (λ e,
         logger ERROR ("Error deleting thumbnail " +:+ Path.str thumb_path
                       +:+ ": " +:+ e);;
         mret deleted_count)
  else mret deleted_count.

Definition delete_thumbnails (original_path static_dir : PurePath) : M bool :=
  let original_path := resolve original_path static_dir in
  found ← path_exists original_path;
  if negb found then
    logger WARNING ("Original image not found for cleanup: "
                    +:+ Path.str original_path);;
    mret false
  else
    let deleted_count := 0 in
    deleted_count ← delete_carousel (carousel_path original_path) deleted_count;
    deleted_count ←
      for_acc THUMBNAIL_SIZES
        (λ deleted_count '(width, height, suffix),
           for_acc ["webp"; "avif"; "jpg"]
             (λ deleted_count fmt,
                delete_thumb (thumb_path original_path suffix fmt) deleted_count)
             deleted_count)
        deleted_count;
    logger INFO ("Deleted " +:+ pretty deleted_count
                 +:+ " thumbnail variants for: " +:+ Path.str original_path);;
    mret true.

Definition delete_original_and_thumbnails (original_path static_dir : PurePath)
    : M bool :=
  let original_path := resolve original_path static_dir in
  let success := true in
  cleaned ← delete_thumbnails original_path static_dir;
  let success := if negb cleaned then false else success in
  found ← path_exists original_path;
  if (found : bool) then
    try_except
      (unlink original_path;;
       logger INFO ("Deleted original image: " +:+ Path.str original_path);;
       mret success)
      (λ e,
         logger ERROR ("Error deleting original image: " +:+ e);;
         mret false)
  else mret success.

End thumbnails.

(** ** A reference instance of the imaging interface

    Images as a mode, a size and a pixel function, with the size
    computation of Pillow's [Image.thumbnail] in exact arithmetic.  It
    shows the contract [PillowLaws] can be met and lets the functions
    above run on concrete inputs. *)

Module Raster.

Record t := Make { r_mode : string; r_size : Z * Z; r_px : Z * Z → list Z }.

Definition bands (m : string) : nat :=
  if String.eqb m "RGBA" then 4
  else if String.eqb m "RGB" then 3
  else if String.eqb m "LA" then 2
  else 1.

Definition to_rgba (m : string) (px : list Z) : list Z :=
  if String.eqb m "RGBA" then px
  else if String.eqb m "RGB" then px ++ [255]
  else if String.eqb m "LA" then
    match px with
    | [l; a] => [l; l; l; a]
    | _ => [0; 0; 0; 255]
    end
  else
    match px with
    | v :: _ => [v; v; v; 255]
    | [] => [0; 0; 0; 255]
    end.

Definition from_rgba (m : string) (px : list Z) : list Z :=
  if String.eqb m "RGBA" then px
  else if String.eqb m "RGB" then List.firstn 3 px
  else if String.eqb m "LA" then [List.hd 0 px; alpha_of px]
  else [List.hd 0 px].

Definition convert (im : t) (m : string) : t :=
  Make m (r_size im) (λ xy, from_rgba m (to_rgba (r_mode im) (r_px im xy))).

Definition new_image (m : string) (sz : Z * Z) (c : list Z) : t :=
  Make m sz (λ _, c).

Definition blend (a : Z) (bg src : list Z) : list Z :=
  zip_with (λ b s, (s * a + b * (255 - a)) / 255) bg src.

Definition paste (bg im : t) (mask : option t) : t :=
  Make (r_mode bg) (r_size bg)
    (λ xy,
       let src := List.firstn 3 (to_rgba (r_mode im) (r_px im xy)) in
       match mask with
       | None => src
       | Some mk =>
           match r_px mk xy with
           | [a] => if a =? 0 then r_px bg xy else blend a (r_px bg xy) src
           | _ => r_px bg xy
           end
       end).

Definition split (im : t) : list t :=
  ((λ k, Make "L" (r_size im) (λ xy, [List.nth k (r_px im xy) 0]))
     <$> seq 0 (bands (r_mode im) - 1))
  ++ [Make "L" (r_size im) (λ xy, [alpha_of (r_px im xy)])].

(** [math.ceil (n / d)] for [0 < d]. *)
Definition ceil_div (n d : Z) : Z :=
  if n mod d =? 0 then n / d else n / d + 1.

(** [Image.thumbnail]'s [preserve_aspect_ratio]: the requested box is kept
    when the image fits; otherwise one side of the box is kept and the
    other is the scaled side, rounded down or up to whichever is closer in
    aspect, and at least 1. *)
Definition thumbnail_size (sz box : Z * Z) : Z * Z :=
  let '(w, h) := sz in
  let '(x, y) := box in
  if (w <=? x) && (h <=? y) then (w, h)
  else if w * y <=? x * h then
    let fl := (y * w) / h in
    let ce := ceil_div (y * w) h in
    let pick := if Z.abs (w * y - fl * h) <=? Z.abs (w * y - ce * h) then fl else ce in
    (Z.max pick 1, y)
  else
    let fl := (x * h) / w in
    let ce := ceil_div (x * h) w in
    let pick :=
      if fl =? 0 then fl
      else if Z.abs (w * fl - x * h) * ce <=? Z.abs (w * ce - x * h) * fl then fl
      else ce in
    (x, Z.max pick 1).

Definition thumbnail (im : t) (box : Z * Z) : t :=
  let sz := thumbnail_size (r_size im) box in
  if (im.(r_size).1 <=? box.1) && (im.(r_size).2 <=? box.2) then im
  else
    Make (r_mode im) sz
      (λ xy, r_px im (xy.1 * im.(r_size).1 / sz.1, xy.2 * im.(r_size).2 / sz.2)).

Definition pillow : Pillow :=
  Build_Pillow t r_mode r_size r_px convert new_image paste split thumbnail.

(** A plain image of one colour. *)
Definition solid (m : string) (sz : Z * Z) (c : list Z) : t := Make m sz (λ _, c).

End Raster.

(** ** Vocabulary of the statements *)

Section vocabulary.
Context `{Pillow}.

(** What [Image.open] yields for a file. *)
Definition decoded (f : file) : option image :=
  match f with
  | Upload d => d
  | Encoded _ _ im => Some im
  end.

(** The formats [delete_thumbnails] looks for. *)
Definition cleanup_formats : list string := ["webp"; "avif"; "jpg"].

(** The image saved for an entry of [THUMBNAIL_SIZES]. *)
Definition thumb_image (img : image) (entry : Z * option Z * string) : image :=
  thumbnail (copy img) (thumbnail_box entry.1.1 entry.1.2).

(** The two mandatory encoders succeed for an entry. *)
Definition size_ok (e : env) (o : PurePath) (keep : bool)
    (entry : Z * option Z * string) : bool :=
  bool_decide (save_error e "WEBP" (thumb_path o entry.2 "webp") = None)
  && (negb keep
      || bool_decide (save_error e "JPEG" (thumb_path o entry.2 "jpg") = None)).

(** The files of one entry after a run from [w] to [w']: the primary
    format, the legacy format when kept, and the optional format exactly
    when its encoder did not raise (a warning is logged when it did). *)
Definition thumbs_written (e : env) (img : image) (o : PurePath) (keep : bool)
    (entry : Z * option Z * string) (w w' : world) : Prop :=
  files w' !! thumb_path o entry.2 "webp"
    = Some (Encoded "WEBP" webp_thumb (thumb_image img entry))
  ∧ (if keep
     then files w' !! thumb_path o entry.2 "jpg"
          = Some (Encoded "JPEG" jpeg_thumb (thumb_image img entry))
     else files w' !! thumb_path o entry.2 "jpg"
          = files w !! thumb_path o entry.2 "jpg")
  ∧ match save_error e "AVIF" (thumb_path o entry.2 "avif") with
    | Some x =>
        files w' !! thumb_path o entry.2 "avif"
          = files w !! thumb_path o entry.2 "avif"
        ∧ (WARNING, "Could not save AVIF (pillow-heif needed): " +:+ x) ∈ logged w'
    | None =>
        files w' !! thumb_path o entry.2 "avif"
          = Some (Encoded "AVIF" avif_thumb (thumb_image img entry))
    end.

(** [q] is one of the thumbnail paths of the entries [l]. *)
Definition thumb_path_of (o : PurePath) (l : list (Z * option Z * string))
    (q : PurePath) : Prop :=
  ∃ entry fmt, entry ∈ l ∧ fmt ∈ cleanup_formats ∧ q = thumb_path o entry.2 fmt.

(** The file extension, the encoder and the keyword arguments of the
    three thumbnail formats. *)
Definition thumb_formats : list (string * string * save_params) :=
  [ ("webp", "WEBP", webp_thumb);
    ("avif", "AVIF", avif_thumb);
    ("jpg", "JPEG", jpeg_thumb) ].

(** [fl] at [q] is an artifact of the original [p] whose normalised
    image is [img]: the carousel copy, or a thumbnail of some entry in one
    of the formats. *)
Definition artifact_of (img : image) (p q : PurePath) (fl : file) : Prop :=
  (q = carousel_path p
   ∧ fl = Encoded "WEBP" webp_carousel (carousel_image img))
  ∨ ∃ entry ext fmt ps,
      entry ∈ THUMBNAIL_SIZES ∧ (ext, fmt, ps) ∈ thumb_formats
      ∧ q = thumb_path p entry.2 ext
      ∧ fl = Encoded fmt ps (thumb_image img entry).

(** [w'] has the log of [w] and more. *)
Definition log_extends (w w' : world) : Prop :=
  ∃ new, logged w' = logged w ++ new.

(** The derived paths of the original [p]. *)
Definition derived_path (p q : PurePath) : Prop :=
  q = carousel_path p ∨ thumb_path_of p THUMBNAIL_SIZES q.

(** An invariant of the cleanup steps on the paths in [D]: it holds after
    a skip, after a failed unlink of an existing file and after a
    successful one. *)
Definition cleanup_invariant (e : env) (D : PurePath → Prop)
    (I : Z → world → Prop) : Prop :=
  ∀ n w q,
    D q → I n w →
    match files w !! q with
    | None => True
    | Some _ =>
        match unlink_error e q with
        | Some x =>
            ∀ msg, I n (World (files w) (logged w ++ [(ERROR, msg +:+ x)]))
        | None =>
            ∀ msg, I (n + 1) (World (delete q (files w)) (logged w ++ [(INFO, msg)]))
        end
    end.

End vocabulary.

(** ** Vocabulary of the further properties *)

(** All prefixes of a string. *)
Fixpoint prefixes (s : string) : list string :=
  match s with
  | EmptyString => [""]
  | String a s' => "" :: (String a <$> prefixes s')
  end.

(** What follows the stem in the name of a derived file. *)
Definition derived_tails : list string :=
  "-carousel.webp"
  :: (THUMBNAIL_SIZES ≫= λ entry,
        (λ fmt, "-" +:+ entry.2 +:+ "." +:+ fmt) <$> cleanup_formats).
Example of_string_ex1 :
  Path.of_string "uploads/photos/abc123.jpg" = MkPath "" ["uploads"; "photos"; "abc123.jpg"].
Proof. reflexivity. Qed.

Example of_string_ex2 :
  Path.of_string "//srv/./a//b.tar.gz" = MkPath "//" ["srv"; "a"; "b.tar.gz"]
  ∧ Path.of_string "///x" = MkPath "/" ["x"]
  ∧ Path.of_string "" = MkPath "" []
  ∧ Path.str (MkPath "" []) = "."
  ∧ Path.stem (Path.of_string "/a/b.tar.gz") = "b.tar"
  ∧ Path.suffix (Path.of_string "/a/b.tar.gz") = ".gz"
  ∧ Path.stem (Path.of_string "/a/.profile") = ".profile"
  ∧ Path.suffix (Path.of_string "/a/name.") = ""
  ∧ Path.str (Path.parent (Path.of_string "/a/b.tar.gz")) = "/a".
Proof. repeat split; reflexivity. Qed.

(** ** Facts about strings and paths *)

Section string_facts.

Implicit Types (s x y : string) (c a : ascii) (l : list string).

Lemma append_nil_l x : "" +:+ x = x.
Proof. reflexivity. Qed.

Lemma append_cons a s x : String a s +:+ x = String a (s +:+ x).
Proof. reflexivity. Qed.

Lemma append_nil_r s : s +:+ "" = s.
Proof. induction s as [|a s IH]; [done | by rewrite append_cons, IH]. Qed.

Lemma append_assoc s x y : (s +:+ x) +:+ y = s +:+ x +:+ y.
Proof. induction s as [|a s IH]; [done | by rewrite !append_cons, IH]. Qed.

Lemma append_inv_head s x y : s +:+ x = s +:+ y → x = y.
Proof.
  induction s as [|a s IH]; [done |].
  rewrite !append_cons. intros [= H]. auto.
Qed.

Lemma contains_app c x y :
  Str.contains c (x +:+ y) = Str.contains c x || Str.contains c y.
Proof.
  induction x as [|a x IH]; [done |].
  rewrite append_cons. simpl. rewrite IH. by rewrite orb_assoc.
Qed.

Lemma split_not_nil c s : Str.split c s ≠ [].
Proof.
  destruct s as [|a s]; simpl; [done |].
  destruct (Ascii.eqb a c); [done |]. by destruct (Str.split c s).
Qed.

Lemma split_without c s : Str.contains c s = false → Str.split c s = [s].
Proof.
  induction s as [|a s IH]; simpl; [done |].
  intros [Ha Hs]%orb_false_iff. rewrite Ha, (IH Hs). done.
Qed.

Lemma split_app c x r :
  Str.contains c x = false →
  Str.split c (x +:+ String c r) = x :: Str.split c r.
Proof.
  induction x as [|a x IH].
  - intros _. rewrite append_nil_l. simpl. by rewrite Ascii.eqb_refl.
  - intros H. simpl in H. apply orb_false_iff in H as [Ha Hx].
    rewrite append_cons. simpl. rewrite Ha, (IH Hx). done.
Qed.

Lemma split_parts_without c s x : x ∈ Str.split c s → Str.contains c x = false.
Proof.
  revert x. induction s as [|a s IH]; simpl; intros x.
  - by intros ->%list_elem_of_singleton.
  - destruct (Ascii.eqb a c) eqn:Ha.
    + intros [->|Hx]%elem_of_cons; [done | by apply IH].
    + pose proof (split_not_nil c s) as Hne.
      destruct (Str.split c s) as [|y ys]; [done |].
      intros [->|Hx]%elem_of_cons.
      * simpl. rewrite Ha. apply IH. by left.
      * apply IH. by right.
Qed.

Lemma split_join c l :
  l ≠ [] → Forall (λ x, Str.contains c x = false) l →
  Str.split c (Str.join c l) = l.
Proof.
  induction l as [|x l IH]; [done |]. intros _ Hl.
  apply Forall_cons in Hl as [Hx Hl].
  destruct l as [|y l].
  - by apply split_without.
  - change (Str.join c (x :: y :: l)) with (x +:+ String c (Str.join c (y :: l))).
    rewrite split_app by done. f_equal. by apply IH.
Qed.

End string_facts.

Section path_facts.

Implicit Types (p d : PurePath) (n s x : string) (l : list string).

Lemma good_part_spec x :
  Path.good_part x = true ↔ x ≠ "" ∧ x ≠ "." ∧ Str.contains Str.sep x = false.
Proof.
  unfold Path.good_part, Path.keep_part.
  rewrite !andb_true_iff, !negb_true_iff, !String.eqb_neq. tauto.
Qed.

Lemma wf_spec p :
  Path.wf p = true ↔
  (root p = "" ∨ root p = "/" ∨ root p = "//")
  ∧ Forall (λ x, Path.good_part x = true) (tail p).
Proof.
  unfold Path.wf.
  rewrite andb_true_iff, !orb_true_iff, !String.eqb_eq, forallb_forall.
  rewrite List.Forall_forall. tauto.
Qed.

Lemma splitroot_root s :
  (Path.splitroot s).1 = "" ∨ (Path.splitroot s).1 = "/" ∨ (Path.splitroot s).1 = "//".
Proof.
  unfold Path.splitroot.
  repeat (first [ progress simpl | case_match ]); auto.
Qed.

Lemma of_string_wf s : Path.wf (Path.of_string s) = true.
Proof.
  apply wf_spec. unfold Path.of_string.
  pose proof (splitroot_root s) as Hr.
  destruct (Path.splitroot s) as [r rel]. simpl in *. split; [done |].
  apply List.Forall_forall. intros x [Hx Hk]%List.filter_In.
  unfold Path.good_part. rewrite Hk. simpl. apply negb_true_iff.
  apply (split_parts_without _ rel). by apply list_elem_of_In.
Qed.

Lemma filter_good l :
  Forall (λ x, Path.good_part x = true) l → List.filter Path.keep_part l = l.
Proof.
  induction 1 as [|x l Hx Hl IH]; simpl; [done |].
  unfold Path.good_part in Hx. apply andb_true_iff in Hx as [-> _].
  by rewrite IH.
Qed.

Lemma good_without l :
  Forall (λ x, Path.good_part x = true) l →
  Forall (λ x, Str.contains Str.sep x = false) l.
Proof.
  intros H. eapply Forall_impl; [exact H |].
  by intros x (_ & _ & Hx)%good_part_spec.
Qed.

Lemma of_string_part n : Path.good_part n = true → Path.of_string n = MkPath "" [n].
Proof.
  intros Hn. pose proof Hn as (Hne & _ & Hs)%good_part_spec.
  unfold Path.of_string.
  destruct n as [|a n]; [done |]. simpl in Hs.
  apply orb_false_iff in Hs as [Ha Hs].
  unfold Path.splitroot. rewrite Ha.
  rewrite split_without by (simpl; by rewrite Ha, Hs).
  f_equal. apply filter_good. by constructor.
Qed.

Lemma join_head a x l :
  ∃ r, Str.join Str.sep (String a x :: l) = String a r.
Proof. destruct l; simpl; eauto. Qed.

Lemma of_string_str p : Path.wf p = true → Path.of_string (Path.str p) = p.
Proof.
  destruct p as [r t]. intros [Hr Ht]%wf_spec. simpl in *.
  unfold Path.str. simpl.
  destruct t as [|x t].
  - destruct Hr as [->|[->| ->]]; reflexivity.
  - pose proof Ht as Ht'. apply Forall_cons in Ht' as [Hx _].
    apply good_part_spec in Hx as (Hne & _ & Hs).
    destruct x as [|a x]; [done |]. simpl in Hs.
    apply orb_false_iff in Hs as [Ha _].
    pose proof (split_join Str.sep (String a x :: t)) as Hsp.
    destruct (join_head a x t) as [j Hj]. rewrite Hj in *.
    assert (Path.of_string (r +:+ String a j) = MkPath r (String a x :: t))
      as Hof.
    { unfold Path.of_string.
      assert (Path.splitroot (r +:+ String a j) = (r, String a j)) as ->.
      { destruct Hr as [->|[->| ->]]; unfold Path.splitroot; simpl;
          by rewrite ?Ha. }
      rewrite Hsp by (by auto using good_without).
      by rewrite filter_good. }
    destruct Hr as [->|[->| ->]]; exact Hof.
Qed.

Lemma parent_wf p : Path.wf p = true → Path.wf (Path.parent p) = true.
Proof.
  rewrite !wf_spec. intros [Hr Ht]. split; [done |]. simpl.
  destruct (tail p) as [|x t] using rev_ind; [done |].
  rewrite removelast_last. by apply Forall_app in Ht as [? _].
Qed.

Lemma join_str_part d n :
  Path.good_part n = true → d </: n = MkPath (root d) (tail d ++ [n]).
Proof. intros Hn. unfold Path.join_str. by rewrite of_string_part. Qed.

Lemma join_str_wf d n :
  Path.wf d = true → Path.good_part n = true → Path.wf (d </: n) = true.
Proof.
  intros [Hr Ht]%wf_spec Hn. rewrite join_str_part by done.
  apply wf_spec. split; [done |]. simpl. apply Forall_app. auto.
Qed.

Lemma parent_join_part d n :
  Path.good_part n = true → Path.parent (d </: n) = d.
Proof.
  intros Hn. rewrite join_str_part by done. unfold Path.parent. simpl.
  rewrite removelast_last. by destruct d.
Qed.

Lemma name_join_part d n :
  Path.good_part n = true → Path.name (d </: n) = n.
Proof.
  intros Hn. rewrite join_str_part by done. unfold Path.name. simpl.
  by rewrite last_last.
Qed.

Lemma join_str_inj d n n' :
  Path.good_part n = true → Path.good_part n' = true →
  d </: n = d </: n' → n = n'.
Proof.
  intros Hn Hn' H. rewrite !join_str_part in H by done.
  injection H as H. by apply app_inv_head in H as [= ->].
Qed.

Lemma name_without p : Path.wf p = true → Str.contains Str.sep (Path.name p) = false.
Proof.
  intros [_ Ht]%wf_spec. unfold Path.name.
  destruct (tail p) as [|x t] using rev_ind; [done |].
  rewrite last_last. apply Forall_app in Ht as [_ Hx].
  apply List.Forall_inv in Hx. apply good_part_spec in Hx. tauto.
Qed.

Lemma substring_without c s i k :
  Str.contains c s = false → Str.contains c (String.substring i k s) = false.
Proof.
  revert i k. induction s as [|a s IH]; intros i k Hs.
  - by destruct i, k.
  - simpl in Hs. apply orb_false_iff in Hs as [Ha Hs].
    destruct i as [|i]; simpl.
    + destruct k as [|k]; simpl; [done |]. by rewrite Ha, IH.
    + by apply IH.
Qed.

Lemma stem_without p : Path.wf p = true → Str.contains Str.sep (Path.stem p) = false.
Proof.
  intros Hp. apply name_without in Hp. unfold Path.stem.
  case_match; [by apply substring_without | done].
Qed.

End path_facts.

(** ** The derived paths *)

Example get_thumbnail_paths_docstring :
  get_thumbnail_paths "uploads/photos/abc123.jpg" None
  = Some (list_to_map
      [ ("webp", [ "uploads/photos/abc123-thumb-sm.webp";
                   "uploads/photos/abc123-thumb-md.webp";
                   "uploads/photos/abc123-thumb-detail.webp";
                   "uploads/photos/abc123-thumb-detail-2x.webp" ]);
        ("avif", [ "uploads/photos/abc123-thumb-sm.avif";
                   "uploads/photos/abc123-thumb-md.avif";
                   "uploads/photos/abc123-thumb-detail.avif";
                   "uploads/photos/abc123-thumb-detail-2x.avif" ]);
        ("jpg",  [ "uploads/photos/abc123-thumb-sm.jpg";
                   "uploads/photos/abc123-thumb-md.jpg";
                   "uploads/photos/abc123-thumb-detail.jpg";
                   "uploads/photos/abc123-thumb-detail-2x.jpg" ]) ]).
Proof. vm_compute. reflexivity. Qed.

Section derived_names.

Implicit Types (s suffix fmt : string).

Lemma thumb_name_good s suffix fmt :
  Str.contains Str.sep s = false →
  Str.contains Str.sep suffix = false →
  Str.contains Str.sep fmt = false →
  Path.good_part (thumb_name s suffix fmt) = true.
Proof.
  intros Hs Hu Hf. apply good_part_spec. unfold thumb_name. split_and!.
  - by destruct s.
  - destruct s as [|a [|b s]]; [done | | done].
    rewrite append_cons. by intros [= _].
  - rewrite !contains_app, Hs, Hu, Hf. done.
Qed.

Lemma size_suffix_without width height suffix :
  (width, height, suffix) ∈ THUMBNAIL_SIZES → Str.contains Str.sep suffix = false.
Proof.
  unfold THUMBNAIL_SIZES. rewrite !elem_of_cons, elem_of_nil.
  intros [H|[H|[H|[H|[]]]]]; by injection H as _ _ ->.
Qed.

Lemma size_suffix_known width height suffix :
  (width, height, suffix) ∈ THUMBNAIL_SIZES →
  suffix ∈ ["thumb-sm"; "thumb-md"; "thumb-detail"; "thumb-detail-2x"].
Proof.
  unfold THUMBNAIL_SIZES. rewrite !elem_of_cons, elem_of_nil.
  intros [H|[H|[H|[H|[]]]]]; injection H as _ _ ->; set_solver.
Qed.

End derived_names.

Section path_table.

Implicit Types (m : gmap string (list string)) (fmts : list string).

Lemma init_lookup fmts m k :
  foldl (λ m fmt, <[fmt := []]> m) m fmts !! k
  = if decide (k ∈ fmts) then Some [] else m !! k.
Proof.
  revert m. induction fmts as [|fmt fmts IH]; intros m.
  - rewrite decide_False by set_solver. done.
  - change (foldl (λ m fmt, <[fmt := []]> m) (<[fmt := []]> m) fmts !! k
            = if decide (k ∈ fmt :: fmts) then Some [] else m !! k).
    rewrite IH. destruct (decide (k = fmt)) as [->|Hne].
    + rewrite lookup_insert_eq, (decide_True _ _ (list_elem_of_here _ _)).
      by destruct (decide _).
    + rewrite lookup_insert_ne by done.
      destruct (decide (k ∈ fmts)) as [Hk|Hk].
      * rewrite decide_True by (by right). done.
      * rewrite decide_False by (by intros [?|?]%elem_of_cons). done.
Qed.

Lemma format_loop (f : string → string) fmts m :
  NoDup fmts → (∀ fmt, fmt ∈ fmts → is_Some (m !! fmt)) →
  ∃ m', for_opt fmts (λ thumbs fmt, thumbs_append thumbs fmt (f fmt)) m = Some m'
    ∧ ∀ k, m' !! k
           = if decide (k ∈ fmts) then (λ l, l ++ [f k]) <$> m !! k else m !! k.
Proof.
  intros Hnd. revert m. induction Hnd as [|fmt fmts Hfmt Hnd IH]; intros m Hm.
  - exists m. split; [done |]. intros k. by rewrite decide_False by set_solver.
  - destruct (Hm fmt) as [l Hl]; [set_solver |].
    destruct (IH (<[fmt := l ++ [f fmt]]> m)) as (m' & Hrun & Hm').
    { intros k Hk. rewrite lookup_insert_ne by set_solver. apply Hm. set_solver. }
    exists m'. split.
    { simpl. unfold thumbs_append at 1. by rewrite Hl. }
    intros k. rewrite Hm'.
    destruct (decide (k = fmt)) as [->|Hne].
    + rewrite lookup_insert_eq, Hl, (decide_True _ _ (list_elem_of_here _ _)).
      by rewrite decide_False by done.
    + rewrite lookup_insert_ne by done.
      destruct (decide (k ∈ fmts)) as [Hk|Hk].
      * rewrite decide_True by (by right). done.
      * rewrite decide_False by (by intros [?|?]%elem_of_cons). done.
Qed.

Lemma size_loop (g : string → string → string)
    (sizes : list (Z * option Z * string)) fmts m :
  NoDup fmts → (∀ fmt, fmt ∈ fmts → is_Some (m !! fmt)) →
  ∃ m', for_opt sizes
          (λ thumbs '(width, height, suffix),
             for_opt fmts
               (λ thumbs fmt, thumbs_append thumbs fmt (g suffix fmt)) thumbs)
          m = Some m'
    ∧ ∀ k, m' !! k
           = if decide (k ∈ fmts)
             then (λ l, l ++ ((λ e, g e.2 k) <$> sizes)) <$> m !! k
             else m !! k.
Proof.
  intros Hnd. revert m.
  induction sizes as [|[[width height] suffix] sizes IH]; intros m Hm.
  - exists m. split; [done |]. intros k. destruct (decide _); [|done].
    destruct (m !! k); simpl; by rewrite ?app_nil_r.
  - destruct (format_loop (g suffix) fmts m Hnd Hm) as (m1 & Hrun1 & Hm1).
    destruct (IH m1) as (m' & Hrun & Hm').
    { intros k Hk. rewrite Hm1. rewrite decide_True by done.
      destruct (Hm k Hk) as [l ->]. by eexists. }
    exists m'. split; [simpl; by rewrite Hrun1 |].
    intros k. rewrite Hm', Hm1. destruct (decide _); [|done].
    destruct (m !! k); simpl; [|done]. by rewrite <-app_assoc.
Qed.

End path_table.

(** C1, as the code has it: a format list without repeated entries, whose
    formats contain no path separator (the default list is one), is mapped
    to one derived path per entry of [THUMBNAIL_SIZES], in that order; the
    [i]-th path of format [fmt] is the string of [d / "{s}-{suffix}.{fmt}"]
    for the [i]-th suffix, lies in the directory [d] of the original and
    carries that name.  The result is a value computed from the two
    arguments alone. *)
Theorem get_thumbnail_paths_table
    (original_path : string) (with_formats : option (list string)) :
  let fmts := from_option id default_formats with_formats in
  let s := Path.stem (Path.of_string original_path) in
  let d := Path.parent (Path.of_string original_path) in
  NoDup fmts →
  (∀ fmt, fmt ∈ fmts → Str.contains Str.sep fmt = false) →
  ∃ thumbs,
    get_thumbnail_paths original_path with_formats = Some thumbs
    ∧ dom thumbs = list_to_set fmts
    ∧ ∀ fmt, fmt ∈ fmts →
        ∃ paths,
          thumbs !! fmt = Some paths
          ∧ length paths = length THUMBNAIL_SIZES
          ∧ ∀ i width height suffix,
              THUMBNAIL_SIZES !! i = Some (width, height, suffix) →
              ∃ q, paths !! i = Some q
                ∧ q = Path.str (d </: thumb_name s suffix fmt)
                ∧ Path.parent (Path.of_string q) = d
                ∧ Path.name (Path.of_string q) = thumb_name s suffix fmt
                ∧ suffix ∈ ["thumb-sm"; "thumb-md"; "thumb-detail"; "thumb-detail-2x"].
Proof.
  intros fmts s d Hnd Hsep.
  set (g := λ suffix fmt, Path.str (d </: thumb_name s suffix fmt)).
  set (m0 := foldl (λ m fmt, <[fmt := []]> m) (∅ : gmap string (list string)) fmts).
  assert (∀ k, m0 !! k = if decide (k ∈ fmts) then Some [] else None) as Hm0.
  { intros k. unfold m0. by rewrite init_lookup, lookup_empty. }
  destruct (size_loop g THUMBNAIL_SIZES fmts m0 Hnd) as (thumbs & Hrun & Hth).
  { intros k Hk. rewrite Hm0, decide_True by done. by eexists. }
  exists thumbs. split_and!.
  - unfold get_thumbnail_paths. destruct with_formats; exact Hrun.
  - apply set_eq. intros k. rewrite elem_of_dom, elem_of_list_to_set, Hth, Hm0.
    destruct (decide (k ∈ fmts)); simpl; [by split; eauto |].
    split; [by intros [? ?] | done].
  - intros fmt Hfmt. rewrite Hth, Hm0, !decide_True by done.
    exists ((λ e, g e.2 fmt) <$> THUMBNAIL_SIZES).
    split; [done |]. split; [by rewrite length_fmap |].
    intros i width height suffix Hi.
    exists (g suffix fmt). rewrite list_lookup_fmap, Hi. split; [done |].
    assert ((width, height, suffix) ∈ THUMBNAIL_SIZES) as Hin
      by (by eapply list_elem_of_lookup_2).
    assert (Path.good_part (thumb_name s suffix fmt) = true) as Hgood.
    { apply thumb_name_good; [apply stem_without, of_string_wf
                             | by eapply size_suffix_without | by apply Hsep]. }
    assert (Path.of_string (g suffix fmt) = d </: thumb_name s suffix fmt) as Hq.
    { apply of_string_str, join_str_wf; [apply parent_wf, of_string_wf | done]. }
    split; [done |]. rewrite Hq.
    split; [by apply parent_join_part |].
    split; [by apply name_join_part | by eapply size_suffix_known].
Qed.

Lemma get_thumbnail_paths_table_witness :
  ∃ thumbs,
    get_thumbnail_paths "uploads/photos/abc123.jpg" None = Some thumbs
    ∧ dom thumbs = list_to_set default_formats
    ∧ ∀ fmt, fmt ∈ default_formats →
        ∃ paths,
          thumbs !! fmt = Some paths
          ∧ length paths = length THUMBNAIL_SIZES
          ∧ ∀ i width height suffix,
              THUMBNAIL_SIZES !! i = Some (width, height, suffix) →
              ∃ q, paths !! i = Some q
                ∧ q = Path.str (MkPath "" ["uploads"; "photos"]
                                  </: thumb_name "abc123" suffix fmt)
                ∧ Path.parent (Path.of_string q) = MkPath "" ["uploads"; "photos"]
                ∧ Path.name (Path.of_string q) = thumb_name "abc123" suffix fmt
                ∧ suffix ∈ ["thumb-sm"; "thumb-md"; "thumb-detail"; "thumb-detail-2x"].
Proof.
  apply (get_thumbnail_paths_table "uploads/photos/abc123.jpg" None).
  - apply (bool_decide_unpack _). vm_compute. exact I.
  - unfold default_formats. simpl. intros fmt.
    rewrite !elem_of_cons, elem_of_nil. intros [->|[->|[->|[]]]]; reflexivity.
Defined.

(** C1 as stated fails on a format list with a repeated entry (the single
    key then collects two paths per size) and on a format that contains a
    separator (the path then lies below [d], not in it). *)
Lemma get_thumbnail_paths_repeated_format :
  (∃ thumbs,
     get_thumbnail_paths "a.jpg" (Some ["webp"; "webp"]) = Some thumbs
     ∧ thumbs !! "webp"
       = Some [ "a-thumb-sm.webp"; "a-thumb-sm.webp";
                "a-thumb-md.webp"; "a-thumb-md.webp";
                "a-thumb-detail.webp"; "a-thumb-detail.webp";
                "a-thumb-detail-2x.webp"; "a-thumb-detail-2x.webp" ]
     ∧ length THUMBNAIL_SIZES = 4%nat)
  ∧ (∃ thumbs q,
       get_thumbnail_paths "up/a.jpg" (Some ["x/y"]) = Some thumbs
       ∧ thumbs !! "x/y" = Some (q :: ["up/a-thumb-md.x/y"; "up/a-thumb-detail.x/y";
                                       "up/a-thumb-detail-2x.x/y"])
       ∧ Path.parent (Path.of_string "up/a.jpg") = MkPath "" ["up"]
       ∧ Path.parent (Path.of_string q) = MkPath "" ["up"; "a-thumb-sm.x"]).
Proof.
  split.
  - eexists. split; [vm_compute; reflexivity |]. split; [|done].
    vm_compute. reflexivity.
  - eexists _, _. split; [vm_compute; reflexivity |].
    split; [vm_compute; reflexivity |]. split; reflexivity.
Qed.

(** ** The derived paths of one original are distinct *)

Section derived_paths.

Implicit Types (o : PurePath) (entry : Z * option Z * string) (fmt : string).

Lemma cleanup_format_without fmt :
  fmt ∈ cleanup_formats → Str.contains Str.sep fmt = false.
Proof.
  unfold cleanup_formats. rewrite !elem_of_cons, elem_of_nil.
  intros [->|[->|[->|[]]]]; reflexivity.
Qed.

Lemma cleanup_formats_elems :
  "webp" ∈ cleanup_formats ∧ "avif" ∈ cleanup_formats ∧ "jpg" ∈ cleanup_formats.
Proof. unfold cleanup_formats. split_and!; repeat constructor. Qed.

Lemma thumb_tails_inj :
  Forall (λ e1 : Z * option Z * string,
    Forall (λ e2 : Z * option Z * string,
      Forall (λ f1,
        Forall (λ f2,
          "-" +:+ e1.2 +:+ "." +:+ f1 = "-" +:+ e2.2 +:+ "." +:+ f2 →
          e1.2 = e2.2 ∧ f1 = f2) cleanup_formats) cleanup_formats)
      THUMBNAIL_SIZES) THUMBNAIL_SIZES.
Proof. apply (bool_decide_unpack _). vm_compute. exact I. Qed.

Lemma thumb_tails_not_carousel :
  Forall (λ e1 : Z * option Z * string,
    Forall (λ f1, "-carousel.webp" ≠ "-" +:+ e1.2 +:+ "." +:+ f1) cleanup_formats)
    THUMBNAIL_SIZES.
Proof. apply (bool_decide_unpack _). vm_compute. exact I. Qed.

Lemma thumb_path_good o entry fmt :
  Path.wf o = true → entry ∈ THUMBNAIL_SIZES → fmt ∈ cleanup_formats →
  Path.good_part (thumb_name (Path.stem o) entry.2 fmt) = true.
Proof.
  intros Ho He Hf. destruct entry as [[width height] suffix].
  apply thumb_name_good;
    [by apply stem_without | by eapply size_suffix_without
    | by apply cleanup_format_without].
Qed.

Lemma carousel_name_good o :
  Path.wf o = true → Path.good_part (Path.stem o +:+ "-carousel.webp") = true.
Proof.
  intros Ho. apply good_part_spec. split_and!.
  - by destruct (Path.stem o).
  - destruct (Path.stem o) as [|a [|b s]]; [done | | done].
    rewrite append_cons. by intros [= _].
  - rewrite contains_app, stem_without by done. reflexivity.
Qed.

Lemma thumb_path_inj o e1 f1 e2 f2 :
  Path.wf o = true →
  e1 ∈ THUMBNAIL_SIZES → e2 ∈ THUMBNAIL_SIZES →
  f1 ∈ cleanup_formats → f2 ∈ cleanup_formats →
  thumb_path o e1.2 f1 = thumb_path o e2.2 f2 → e1.2 = e2.2 ∧ f1 = f2.
Proof.
  intros Ho He1 He2 Hf1 Hf2 Heq. unfold thumb_path in Heq.
  apply join_str_inj in Heq; [|by apply thumb_path_good..].
  unfold thumb_name in Heq. apply append_inv_head in Heq.
  pose proof thumb_tails_inj as Hinj.
  rewrite Forall_forall in Hinj. specialize (Hinj e1 He1).
  rewrite Forall_forall in Hinj. specialize (Hinj e2 He2).
  rewrite Forall_forall in Hinj. specialize (Hinj f1 Hf1).
  rewrite Forall_forall in Hinj. by apply Hinj.
Qed.

Lemma carousel_not_thumb o entry fmt :
  Path.wf o = true → entry ∈ THUMBNAIL_SIZES → fmt ∈ cleanup_formats →
  carousel_path o ≠ thumb_path o entry.2 fmt.
Proof.
  intros Ho He Hf Heq. unfold carousel_path, thumb_path in Heq.
  apply join_str_inj in Heq;
    [|by apply carousel_name_good | by apply thumb_path_good].
  unfold thumb_name in Heq. apply append_inv_head in Heq.
  pose proof thumb_tails_not_carousel as Hne.
  rewrite Forall_forall in Hne. specialize (Hne entry He).
  rewrite Forall_forall in Hne. by apply (Hne fmt Hf).
Qed.

Lemma joinpath_wf a b :
  Path.wf a = true → Path.wf b = true → Path.wf (a </> b) = true.
Proof.
  intros Ha Hb. unfold Path.joinpath. case_match; [done |].
  apply wf_spec in Ha as [Hr Ht]. apply wf_spec in Hb as [_ Ht'].
  apply wf_spec. split; [done |]. simpl. by apply Forall_app.
Qed.

Lemma resolve_wf o sd :
  Path.wf o = true → Path.wf sd = true → Path.wf (resolve o sd) = true.
Proof. intros Ho Hs. unfold resolve. case_match; [by apply joinpath_wf | done]. Qed.

Lemma resolve_absolute o sd :
  Path.is_absolute (resolve o sd) = true → resolve (resolve o sd) sd = resolve o sd.
Proof. intros Habs. unfold resolve at 1. by rewrite Habs. Qed.

End derived_paths.

(** ** Running the monad *)

Ltac munfold :=
  unfold mbind, M_bind, mret, M_ret, try_except, lift, logger, save,
    has_pillow, path_exists in *.

Ltac lookup_inserts :=
  repeat first [ rewrite lookup_insert_eq | rewrite lookup_insert_ne by done ].

Section generate_facts.
Context `{Pillow}.

Implicit Types (e : env) (w : world) (o q : PurePath) (img : image)
  (entry : Z * option Z * string) (keep : bool).

Lemma log_extends_refl w : log_extends w w.
Proof. exists []. by rewrite app_nil_r. Qed.

Lemma log_extends_trans w1 w2 w3 :
  log_extends w1 w2 → log_extends w2 w3 → log_extends w1 w3.
Proof.
  intros [n1 H1] [n2 H2]. exists (n1 ++ n2). by rewrite H2, H1, app_assoc.
Qed.

Lemma log_extends_elem w w' x : log_extends w w' → x ∈ logged w → x ∈ logged w'.
Proof. intros [n ->] Hx. apply elem_of_app. by left. Qed.

Lemma for_each_app {A} (l1 l2 : list A) (body : A → M unit) e w :
  for_each (l1 ++ l2) body e w
  = match for_each l1 body e w with
    | (Return _, w') => for_each l2 body e w'
    | (Raise x, w') => (Raise x, w')
    end.
Proof.
  revert w. induction l1 as [|a l1 IH]; intros w; [done |].
  simpl. munfold. destruct (body a e w) as [[[]|x] w1]; [apply IH | done].
Qed.

Lemma thumb_paths_distinct o entry :
  Path.wf o = true → entry ∈ THUMBNAIL_SIZES →
  thumb_path o entry.2 "webp" ≠ thumb_path o entry.2 "avif"
  ∧ thumb_path o entry.2 "webp" ≠ thumb_path o entry.2 "jpg"
  ∧ thumb_path o entry.2 "avif" ≠ thumb_path o entry.2 "jpg".
Proof.
  intros Ho He. destruct cleanup_formats_elems as (Hwebp & Havif & Hjpg).
  split_and!; intros Heq; by apply thumb_path_inj in Heq as [_ [=]].
Qed.

(** One iteration changes the three paths of its entry at most. *)
Lemma generate_size_frame e img o keep entry w q :
  q ≠ thumb_path o entry.2 "webp" →
  q ≠ thumb_path o entry.2 "avif" →
  q ≠ thumb_path o entry.2 "jpg" →
  files (generate_size img o keep entry e w).2 !! q = files w !! q.
Proof.
  intros Hw Ha Hj. destruct entry as [[width height] suffix]. simpl in *.
  unfold generate_size. munfold.
  repeat (case_match; simplify_eq; simpl); by rewrite ?lookup_insert_ne.
Qed.

Lemma generate_size_log e img o keep entry w :
  log_extends w (generate_size img o keep entry e w).2.
Proof.
  destruct entry as [[width height] suffix].
  unfold generate_size. munfold.
  repeat (case_match; simplify_eq; simpl);
    unfold log_extends; simpl; rewrite <-?app_assoc;
    first [ by eexists | exists []; by rewrite app_nil_r ].
Qed.

Lemma generate_size_ok e img o keep entry w :
  Path.wf o = true → entry ∈ THUMBNAIL_SIZES →
  size_ok e o keep entry = true →
  ∃ w', generate_size img o keep entry e w = (Return (), w')
    ∧ thumbs_written e img o keep entry w w'.
Proof.
  intros Ho He Hok.
  destruct (thumb_paths_distinct o entry Ho He) as (Hwa & Hwj & Haj).
  unfold size_ok in Hok. apply andb_true_iff in Hok as [Hwebp Hjpg].
  apply bool_decide_eq_true in Hwebp.
  unfold thumbs_written, thumb_image.
  destruct entry as [[width height] suffix]. simpl in *.
  unfold generate_size. munfold. rewrite Hwebp.
  destruct keep; simpl in *.
  - apply bool_decide_eq_true in Hjpg.
    destruct (save_error e "AVIF" _) as [x|] eqn:Havif; simpl;
      rewrite Hjpg; eexists; (split; [reflexivity |]); simpl;
      split_and!; lookup_inserts; try done.
    apply elem_of_app. left. apply elem_of_app. right. by left.
  - destruct (save_error e "AVIF" _) as [x|] eqn:Havif; simpl;
      eexists; (split; [reflexivity |]); simpl;
      split_and!; lookup_inserts; try done.
    apply elem_of_app. right. by left.
Qed.

Lemma generate_size_fail e img o keep entry w :
  size_ok e o keep entry = false →
  ∃ x w',
    generate_size img o keep entry e w = (Raise x, w')
    ∧ (save_error e "WEBP" (thumb_path o entry.2 "webp") = Some x
       ∨ (keep = true
          ∧ save_error e "JPEG" (thumb_path o entry.2 "jpg") = Some x)).
Proof.
  intros Hok. unfold size_ok in Hok.
  destruct entry as [[width height] suffix]. simpl in *.
  unfold generate_size. munfold.
  destruct (save_error e "WEBP" _) as [x|] eqn:Hwebp; [by eauto 10 |].
  rewrite bool_decide_eq_true_2 in Hok by done. simpl in Hok.
  destruct keep; [|done]. simpl in Hok. apply bool_decide_eq_false in Hok.
  destruct (save_error e "JPEG" _) as [x|] eqn:Hjpg; [|done].
  destruct (save_error e "AVIF" _); simpl; eauto 10.
Qed.

(** The loop over the sizes. *)

Lemma not_thumb_path_of_cons o entry l q :
  ¬ thumb_path_of o (entry :: l) q →
  (q ≠ thumb_path o entry.2 "webp"
   ∧ q ≠ thumb_path o entry.2 "avif"
   ∧ q ≠ thumb_path o entry.2 "jpg")
  ∧ ¬ thumb_path_of o l q.
Proof.
  intros Hq. split_and!.
  - intros ->. apply Hq. exists entry, "webp". split_and!; [by left | | done].
    unfold cleanup_formats. by left.
  - intros ->. apply Hq. exists entry, "avif". split_and!; [by left | | done].
    unfold cleanup_formats. right. by left.
  - intros ->. apply Hq. exists entry, "jpg". split_and!; [by left | | done].
    unfold cleanup_formats. right. right. by left.
  - intros (entry' & fmt & He & Hf & ->). apply Hq.
    exists entry', fmt. split_and!; [by right | done | done].
Qed.

Lemma thumbs_loop_frame e img o keep l w q :
  ¬ thumb_path_of o l q →
  files (for_each l (generate_size img o keep) e w).2 !! q = files w !! q.
Proof.
  revert w. induction l as [|entry l IH]; intros w Hq; [done |].
  apply not_thumb_path_of_cons in Hq as [(Hw & Ha & Hj) Hq].
  pose proof (generate_size_frame e img o keep entry w q Hw Ha Hj) as Hframe.
  simpl. munfold.
  destruct (generate_size img o keep entry e w) as [[[]|x] w1]; simpl in *.
  - by rewrite IH.
  - done.
Qed.

Lemma thumbs_loop_log e img o keep l w :
  log_extends w (for_each l (generate_size img o keep) e w).2.
Proof.
  revert w. induction l as [|entry l IH]; intros w; [apply log_extends_refl |].
  pose proof (generate_size_log e img o keep entry w) as Hlog.
  simpl. munfold.
  destruct (generate_size img o keep entry e w) as [[[]|x] w1]; simpl in *.
  - eapply log_extends_trans; [exact Hlog | apply IH].
  - done.
Qed.

Lemma thumbs_loop_returns e img o keep l w w' :
  for_each l (generate_size img o keep) e w = (Return (), w') →
  ∀ entry, entry ∈ l → size_ok e o keep entry = true.
Proof.
  revert w. induction l as [|entry l IH]; intros w Hrun entry' Hin.
  - by apply elem_of_nil in Hin.
  - simpl in Hrun. munfold.
    destruct (size_ok e o keep entry) eqn:Hok.
    + destruct (generate_size img o keep entry e w) as [[[]|x] w1]; [|done].
      apply elem_of_cons in Hin as [->|Hin]; [done | by eapply IH].
    + destruct (generate_size_fail e img o keep entry w Hok) as (x & w1 & Hf & _).
      by rewrite Hf in Hrun.
Qed.

Lemma other_entry_paths o entry entry' f f' (l : list (Z * option Z * string)) :
  Path.wf o = true →
  entry ∈ THUMBNAIL_SIZES → entry' ∈ THUMBNAIL_SIZES →
  f ∈ cleanup_formats → f' ∈ cleanup_formats →
  entry.2 ∉ l.*2 → entry' ∈ l →
  thumb_path o entry'.2 f' ≠ thumb_path o entry.2 f.
Proof.
  intros Ho He He' Hf Hf' Hnot Hin Heq.
  apply thumb_path_inj in Heq as [Heq _]; try done.
  apply Hnot. rewrite <-Heq. apply list_elem_of_fmap. eauto.
Qed.

Lemma thumbs_written_later e img o keep entry w w1 w' :
  (∀ f, f ∈ cleanup_formats →
        files w' !! thumb_path o entry.2 f = files w1 !! thumb_path o entry.2 f) →
  log_extends w1 w' →
  thumbs_written e img o keep entry w w1 → thumbs_written e img o keep entry w w'.
Proof.
  destruct cleanup_formats_elems as (Hw & Ha & Hj).
  intros Hsame Hlog (H1 & H2 & H3). unfold thumbs_written.
  rewrite !Hsame by done. split_and!; [done | done |].
  destruct (save_error e "AVIF" _); [|done].
  destruct H3 as [H3 H4]. split; [done | by eapply log_extends_elem].
Qed.

Lemma thumbs_written_earlier e img o keep entry w w1 w' :
  (∀ f, f ∈ cleanup_formats →
        files w1 !! thumb_path o entry.2 f = files w !! thumb_path o entry.2 f) →
  thumbs_written e img o keep entry w1 w' → thumbs_written e img o keep entry w w'.
Proof.
  destruct cleanup_formats_elems as (Hw & Ha & Hj).
  intros Hsame (H1 & H2 & H3). unfold thumbs_written.
  rewrite <-!Hsame by done. done.
Qed.

Lemma thumbs_loop_ok e img o keep l w :
  Path.wf o = true →
  (∀ entry, entry ∈ l → entry ∈ THUMBNAIL_SIZES) →
  NoDup l.*2 →
  (∀ entry, entry ∈ l → size_ok e o keep entry = true) →
  ∃ w', for_each l (generate_size img o keep) e w = (Return (), w')
    ∧ ∀ entry, entry ∈ l → thumbs_written e img o keep entry w w'.
Proof.
  intros Ho. revert w. induction l as [|entry l IH]; intros w Hin Hnd Hok.
  - exists w. split; [done |]. intros entry Habs. by apply elem_of_nil in Habs.
  - rewrite fmap_cons in Hnd. apply NoDup_cons in Hnd as [Hfresh Hnd].
    assert (entry ∈ THUMBNAIL_SIZES) as He by (apply Hin; by left).
    destruct (generate_size_ok e img o keep entry w Ho He) as (w1 & Hrun1 & Hw1).
    { apply Hok. by left. }
    destruct (IH w1) as (w' & Hrun & Hw').
    { intros entry' He'. apply Hin. by right. }
    { done. }
    { intros entry' He'. apply Hok. by right. }
    exists w'. split; [simpl; munfold; by rewrite Hrun1 |].
    pose proof (thumbs_loop_frame e img o keep l w1) as Hframe.
    pose proof (thumbs_loop_log e img o keep l w1) as Hlog.
    rewrite Hrun in Hframe, Hlog. simpl in Hframe, Hlog.
    intros entry' [->|Hin']%elem_of_cons.
    + eapply thumbs_written_later; [|exact Hlog | exact Hw1].
      intros f Hf. apply Hframe. intros (entry' & f' & He' & Hf' & Heq).
      symmetry in Heq. revert Heq.
      apply (other_entry_paths o entry entry' f f' l); auto.
      apply Hin. by right.
    + eapply thumbs_written_earlier; [|by apply Hw'].
      intros f Hf.
      pose proof (generate_size_frame e img o keep entry w
                    (thumb_path o entry'.2 f)) as Hf1.
      rewrite Hrun1 in Hf1. simpl in Hf1.
      destruct cleanup_formats_elems as (Hwebp & Havif & Hjpg).
      assert (entry' ∈ THUMBNAIL_SIZES) by (apply Hin; by right).
      apply Hf1; apply (other_entry_paths o entry entry' _ f l); auto.
Qed.

Lemma thumbs_loop_fail e img o keep pre x post w :
  Path.wf o = true →
  (∀ entry, entry ∈ pre ++ x :: post → entry ∈ THUMBNAIL_SIZES) →
  NoDup (pre ++ x :: post).*2 →
  (∀ entry, entry ∈ pre → size_ok e o keep entry = true) →
  size_ok e o keep x = false →
  ∃ err w',
    for_each (pre ++ x :: post) (generate_size img o keep) e w = (Raise err, w')
    ∧ (∀ entry, entry ∈ pre → thumbs_written e img o keep entry w w')
    ∧ (∀ q, thumb_path_of o post q → files w' !! q = files w !! q)
    ∧ log_extends w w'
    ∧ (save_error e "WEBP" (thumb_path o x.2 "webp") = Some err
       ∨ (keep = true
          ∧ save_error e "JPEG" (thumb_path o x.2 "jpg") = Some err)).
Proof.
  intros Ho Hin Hnd Hpre Hx.
  rewrite fmap_app, fmap_cons in Hnd.
  apply NoDup_app in Hnd as (Hndpre & Hdisj & Hnd).
  apply NoDup_cons in Hnd as [Hxfresh Hndpost].
  destruct (thumbs_loop_ok e img o keep pre w Ho) as (w1 & Hrun1 & Hw1); auto.
  { intros entry He. apply Hin, elem_of_app. by left. }
  destruct (generate_size_fail e img o keep x w1 Hx) as (err & w' & Hrunx & Herr).
  exists err, w'. split_and!; [| | | |exact Herr].
  - rewrite for_each_app, Hrun1. simpl. munfold. by rewrite Hrunx.
  - intros entry He.
    assert (entry.2 ≠ x.2) as Hne.
    { intros Heq. apply (Hdisj entry.2).
      - apply list_elem_of_fmap. eauto.
      - rewrite Heq. by left. }
    eapply thumbs_written_later; [| |by apply Hw1].
    + intros f Hf.
      pose proof (generate_size_frame e img o keep x w1 (thumb_path o entry.2 f)) as Hf1.
      rewrite Hrunx in Hf1. simpl in Hf1.
      destruct cleanup_formats_elems as (Hwebp & Havif & Hjpg).
      assert (entry ∈ THUMBNAIL_SIZES) by (apply Hin, elem_of_app; by left).
      assert (x ∈ THUMBNAIL_SIZES) by (apply Hin, elem_of_app; right; by left).
      apply Hf1; intros Heq; apply thumb_path_inj in Heq as [Heq _]; done.
    + pose proof (generate_size_log e img o keep x w1) as Hlog.
      by rewrite Hrunx in Hlog.
  - intros q (entry & f & He & Hf & ->).
    assert (entry ∈ THUMBNAIL_SIZES) as HeT.
    { apply Hin, elem_of_app. right. by right. }
    assert (x ∈ THUMBNAIL_SIZES) as HxT.
    { apply Hin, elem_of_app. right. by left. }
    destruct cleanup_formats_elems as (Hwebp & Havif & Hjpg).
    pose proof (generate_size_frame e img o keep x w1 (thumb_path o entry.2 f)) as Hf1.
    rewrite Hrunx in Hf1. simpl in Hf1. rewrite Hf1.
    + pose proof (thumbs_loop_frame e img o keep pre w (thumb_path o entry.2 f)) as Hf2.
      rewrite Hrun1 in Hf2. simpl in Hf2. apply Hf2.
      intros (entry' & f' & He' & Hf' & Heq).
      apply thumb_path_inj in Heq as [Heq _]; try done.
      * apply (Hdisj entry.2).
        -- rewrite Heq. apply list_elem_of_fmap. eauto.
        -- right. apply list_elem_of_fmap. eauto.
      * apply Hin, elem_of_app. by left.
    + intros Heq. apply thumb_path_inj in Heq as [Heq _]; try done.
      apply Hxfresh. rewrite <-Heq. apply list_elem_of_fmap. eauto.
    + intros Heq. apply thumb_path_inj in Heq as [Heq _]; try done.
      apply Hxfresh. rewrite <-Heq. apply list_elem_of_fmap. eauto.
    + intros Heq. apply thumb_path_inj in Heq as [Heq _]; try done.
      apply Hxfresh. rewrite <-Heq. apply list_elem_of_fmap. eauto.
  - pose proof (thumbs_loop_log e img o keep pre w) as Hl1.
    rewrite Hrun1 in Hl1. simpl in Hl1.
    pose proof (generate_size_log e img o keep x w1) as Hl2.
    rewrite Hrunx in Hl2. simpl in Hl2.
    by eapply log_extends_trans.
Qed.

End generate_facts.

(** ** The [try] block of [generate_thumbnails] *)

Section generate_runs.
Context `{Pillow}.

Implicit Types (e : env) (w : world) (o p q : PurePath) (img src : image)
  (entry : Z * option Z * string) (keep : bool).

Lemma THUMBNAIL_SIZES_suffixes : NoDup THUMBNAIL_SIZES.*2.
Proof. apply (bool_decide_unpack _). vm_compute. exact I. Qed.

Lemma Image_open_some p e w f im :
  files w !! p = Some f → decoded f = Some im →
  Image_open p e w = (Return im, w).
Proof.
  intros Hf Hd. unfold Image_open. rewrite Hf.
  destruct f as [[?|]|]; simpl in Hd; by simplify_eq.
Qed.

Lemma Image_open_cases p e w :
  (∃ f im, files w !! p = Some f ∧ decoded f = Some im
           ∧ Image_open p e w = (Return im, w))
  ∨ (∃ x, Image_open p e w = (Raise x, w)).
Proof.
  unfold Image_open. destruct (files w !! p) as [[[im|]|fmt ps im]|] eqn:Hf;
    eauto 10.
Qed.

(** The run of the [try] block when nothing mandatory fails. *)
Lemma generate_all_ok e w p keep f src img :
  Path.wf p = true →
  files w !! p = Some f → decoded f = Some src →
  normalize src = Return img →
  save_error e "WEBP" (carousel_path p) = None →
  (∀ entry, entry ∈ THUMBNAIL_SIZES → size_ok e p keep entry = true) →
  ∃ w',
    generate_all p keep e w = (Return true, w')
    ∧ files w' !! carousel_path p
      = Some (Encoded "WEBP" webp_carousel (carousel_image img))
    ∧ (∀ entry, entry ∈ THUMBNAIL_SIZES → thumbs_written e img p keep entry w w')
    ∧ (∀ q, q ≠ carousel_path p → ¬ thumb_path_of p THUMBNAIL_SIZES q →
            files w' !! q = files w !! q)
    ∧ log_extends w w'
    ∧ (INFO, "Successfully generated all thumbnails for: " +:+ Path.str p)
      ∈ logged w'.
Proof.
  intros Hp Hf Hd Hn Hc Hok.
  set (w1 := World (<[carousel_path p
                      := Encoded "WEBP" webp_carousel (carousel_image img)]> (files w))
                   (logged w ++ [(INFO, "Generated carousel version: "
                                        +:+ Path.str (carousel_path p))])).
  destruct (thumbs_loop_ok e img p keep THUMBNAIL_SIZES w1 Hp)
    as (w2 & Hloop & Hw2); [done | apply THUMBNAIL_SIZES_suffixes | done |].
  pose proof (thumbs_loop_frame e img p keep THUMBNAIL_SIZES w1) as Hframe.
  pose proof (thumbs_loop_log e img p keep THUMBNAIL_SIZES w1) as Hlog.
  rewrite Hloop in Hframe, Hlog. simpl in Hframe, Hlog.
  eexists. split_and!.
  - unfold generate_all. munfold.
    rewrite (Image_open_some p e w f src Hf Hd), Hn, Hc.
    cbn [files logged]. fold w1. rewrite Hloop. reflexivity.
  - simpl. rewrite Hframe.
    + subst w1. simpl. by rewrite lookup_insert_eq.
    + intros (entry & fmt & He & Hfmt & Heq). by eapply carousel_not_thumb.
  - intros entry He.
    eapply (thumbs_written_later _ _ _ _ _ _ w2);
      [done | eexists; reflexivity |].
    eapply thumbs_written_earlier; [|by apply Hw2].
    intros fmt Hfmt. subst w1. simpl. rewrite lookup_insert_ne; [done |].
    by apply carousel_not_thumb.
  - intros q Hq1 Hq2. simpl. rewrite Hframe by done.
    subst w1. simpl. by rewrite lookup_insert_ne.
  - eapply log_extends_trans; [|eexists; reflexivity].
    eapply log_extends_trans; [|exact Hlog].
    subst w1. eexists. reflexivity.
  - simpl. apply elem_of_app. right. by left.
Qed.

(** What a [True] result says about the run. *)
Lemma generate_thumbnails_true e w original static keep w' :
  generate_thumbnails original static keep e w = (Return true, w') →
  HAS_PILLOW e = true
  ∧ is_image_processable (resolve original static) = true
  ∧ ∃ f src img,
      files w !! resolve original static = Some f
      ∧ decoded f = Some src
      ∧ normalize src = Return img
      ∧ save_error e "WEBP" (carousel_path (resolve original static)) = None
      ∧ (∀ entry, entry ∈ THUMBNAIL_SIZES →
                  size_ok e (resolve original static) keep entry = true)
      ∧ generate_all (resolve original static) keep e w = (Return true, w').
Proof.
  unfold generate_thumbnails. set (p := resolve original static).
  munfold. intros Hrun.
  destruct (HAS_PILLOW e); simpl in Hrun; [|done].
  destruct (files w !! p) as [f|] eqn:Hf; simpl in Hrun; [|done].
  destruct (is_image_processable p); simpl in Hrun; [|done].
  split; [done |]. split; [done |].
  destruct (generate_all p keep e w) as [[b|x] w1] eqn:Hall; [|done].
  injection Hrun as -> ->.
  unfold generate_all in Hall. munfold.
  destruct (Image_open_cases p e w) as [(f' & src & Hf' & Hd & Ho)|[x Ho]];
    rewrite Ho in Hall; [|done].
  rewrite Hf in Hf'. injection Hf' as <-.
  destruct (normalize src) as [img|x] eqn:Hn; [|done].
  destruct (save_error e "WEBP" (carousel_path p)) as [x|] eqn:Hc; [done |].
  match type of Hall with
  | context [for_each ?l ?b e ?w0] =>
      destruct (for_each l b e w0) as [[[]|x] w2] eqn:Hloop; [|done]
  end.
  exists f, src, img. split_and!; try done.
  by eapply thumbs_loop_returns.
Qed.

End generate_runs.

(** ** The reference instance meets the contract *)

Section raster_laws.

Lemma ceil_div_spec n d :
  0 < d → 0 ≤ n →
  let c := Raster.ceil_div n d in
  n / d ≤ c ∧ c ≤ n / d + 1 ∧ n ≤ c * d ∧ c * d < n + d.
Proof.
  intros Hd Hn. unfold Raster.ceil_div.
  pose proof (Z.div_mod n d ltac:(lia)) as Hdm.
  pose proof (Z.mod_pos_bound n d Hd) as Hm.
  destruct (n mod d =? 0) eqn:Hz; simpl.
  - apply Z.eqb_eq in Hz. nia.
  - apply Z.eqb_neq in Hz. nia.
Qed.

Lemma thumbnail_size_spec w h x y :
  0 < w → 0 < h → 0 < x → 0 < y →
  let sz := Raster.thumbnail_size (w, h) (x, y) in
  fits_in sz (x, y) ∧ fits_in sz (w, h) ∧ 0 < sz.1 ∧ 0 < sz.2
  ∧ same_aspect (w, h) sz.
Proof.
  intros Hw Hh Hx Hy. unfold Raster.thumbnail_size, fits_in, same_aspect.
  destruct ((w <=? x) && (h <=? y)) eqn:Hfit; simpl.
  { apply andb_true_iff in Hfit as [?%Z.leb_le ?%Z.leb_le]. lia. }
  apply andb_false_iff in Hfit.
  assert (x < w ∨ y < h) as Hbig by (destruct Hfit as [?%Z.leb_gt|?%Z.leb_gt]; lia).
  clear Hfit.
  destruct (w * y <=? x * h) eqn:Hside.
  - apply Z.leb_le in Hside.
    pose proof (ceil_div_spec (y * w) h Hh ltac:(nia)) as (Hc1 & Hc2 & Hc3 & Hc4).
    pose proof (Z.div_mod (y * w) h ltac:(lia)) as Hdm.
    pose proof (Z.mod_pos_bound (y * w) h Hh) as Hm.
    pose proof (Z.div_pos (y * w) h ltac:(nia) Hh) as Hfl.
    set (fl := y * w / h) in *. set (ce := Raster.ceil_div (y * w) h) in *.
    assert (y < h) as Hyh by nia.
    assert (ce ≤ x) by nia. assert (ce ≤ w) by nia.
    assert (fl = 0 → ce = 1) by nia.
    destruct (Z.abs (w * y - fl * h) <=? Z.abs (w * y - ce * h)); simpl; nia.
  - apply Z.leb_gt in Hside.
    pose proof (ceil_div_spec (x * h) w Hw ltac:(nia)) as (Hc1 & Hc2 & Hc3 & Hc4).
    pose proof (Z.div_mod (x * h) w ltac:(lia)) as Hdm.
    pose proof (Z.mod_pos_bound (x * h) w Hw) as Hm.
    pose proof (Z.div_pos (x * h) w ltac:(nia) Hw) as Hfl.
    set (fl := x * h / w) in *. set (ce := Raster.ceil_div (x * h) w) in *.
    assert (x < w) as Hxw by nia.
    assert (ce ≤ y) by nia. assert (ce ≤ h) by nia.
    assert (fl = 0 → ce = 1) by nia.
    destruct (fl =? 0) eqn:Hz; simpl.
    + apply Z.eqb_eq in Hz. nia.
    + destruct (Z.abs (w * fl - x * h) * ce <=? Z.abs (w * ce - x * h) * fl);
        simpl; nia.
Qed.

Lemma raster_laws : @PillowLaws Raster.pillow.
Proof.
  split; simpl.
  - done.
  - done.
  - intros im xy l a Hm Hpx. unfold Raster.convert. simpl.
    by rewrite Hm, Hpx.
  - done.
  - done.
  - done.
  - done.
  - done.
  - intros bg im mask xy Hmask. unfold Raster.paste. simpl. by rewrite Hmask.
  - intros im Hm. unfold Raster.split. rewrite Hm. eexists _, _.
    split; [reflexivity |]. done.
  - intros im box. unfold Raster.thumbnail. by case_match.
  - intros im [x y]. unfold fits_in. simpl. intros [Hx Hy].
    unfold Raster.thumbnail. simpl.
    apply Z.leb_le in Hx, Hy. by rewrite Hx, Hy.
  - intros im [x y]. unfold width, height. simpl. intros Hw Hh Hx Hy.
    destruct im as [m [w h] px]. simpl in *.
    pose proof (thumbnail_size_spec w h x y Hw Hh Hx Hy) as Hspec.
    unfold Raster.thumbnail. cbn [Raster.r_size fst snd].
    destruct ((w <=? x) && (h <=? y)) eqn:Hfit.
    + apply andb_true_iff in Hfit as [?%Z.leb_le ?%Z.leb_le].
      unfold fits_in, same_aspect. simpl. lia.
    + exact Hspec.
Qed.

End raster_laws.

(** ** The claims about [generate_thumbnails] *)

Example svg_not_processable :
  is_image_processable (Path.of_string "/srv/static/uploads/emblems/logo.svg") = false
  ∧ is_image_processable (Path.of_string "uploads/photos/IMG_0001.JPG") = true
  ∧ is_image_processable (Path.of_string "uploads/photos/.jpg") = false.
Proof. repeat split; reflexivity. Qed.



Section normalization.
Context `{PillowLaws}.

Implicit Types (src img : image).

Lemma last_band_RGBA img :
  mode img = "RGBA" →
  ∃ mask, last_band img = Return mask
    ∧ ∀ xy, getpixel mask xy = [alpha_of (getpixel img xy)].
Proof.
  intros Hm. destruct (split_RGBA img Hm) as (bands & a & Hs & Ha).
  exists a. split; [|done]. unfold last_band. by rewrite Hs, last_snoc.
Qed.

(** Compositing an image in mode [RGBA] onto white. *)
Lemma normalize_composite src rgba :
  mode rgba = "RGBA" → size rgba = size src →
  ∃ mask,
    last_band rgba = Return mask
    ∧ (∀ xy, getpixel mask xy = [alpha_of (getpixel rgba xy)])
    ∧ ∀ out, out = paste (new_image "RGB" (size src) [255; 255; 255]) rgba (Some mask) →
        mode out = "RGB" ∧ size out = size src
        ∧ ∀ xy, alpha_of (getpixel rgba xy) = 0 → getpixel out xy = [255; 255; 255].
Proof.
  intros Hm Hs. destruct (last_band_RGBA rgba Hm) as (mask & Hl & Hmask).
  exists mask. split_and!; [done | done |]. intros out ->.
  rewrite paste_mode, paste_size, new_image_mode, new_image_size.
  split_and!; [done | done |]. intros xy Hz.
  rewrite paste_masked_out by (by rewrite Hmask, Hz).
  apply new_image_pixel.
Qed.

Lemma normalize_cases src :
  ∃ out,
    normalize src = Return out
    ∧ mode out = "RGB"
    ∧ size out = size src
    ∧ (mode src = "RGB" → out = src)
    ∧ (mode src ∉ ["RGBA"; "LA"; "P"; "RGB"] → out = convert src "RGB")
    ∧ (mode src ∈ ["RGBA"; "LA"; "P"] →
       let rgba := if String.eqb (mode src) "RGBA" then src
                   else convert src "RGBA" in
       mode rgba = "RGBA"
       ∧ ∃ mask,
           last_band rgba = Return mask
           ∧ (∀ xy, getpixel mask xy = [alpha_of (getpixel rgba xy)])
           ∧ out = paste (new_image "RGB" (size src) [255; 255; 255])
                     rgba (Some mask)
           ∧ ∀ xy, alpha_of (getpixel rgba xy) = 0 →
                   getpixel out xy = [255; 255; 255]).
Proof.
  destruct (decide (mode src = "RGBA")) as [Hrgba|Hrgba].
  { destruct (normalize_composite src src Hrgba eq_refl) as (mask & Hl & Hmask & Hout).
    destruct (Hout _ eq_refl) as (Hmo & Hso & Hpx).
    eexists. split_and!; [|exact Hmo | exact Hso | | |].
    - unfold normalize. repeat (rewrite Hrgba; simpl). by rewrite Hl.
    - by rewrite Hrgba.
    - intros Hin. exfalso. apply Hin. rewrite Hrgba. by left.
    - intros _. rewrite Hrgba. simpl. eauto 10. }
  destruct (decide (mode src = "LA")) as [Hla|Hla].
  { set (rgba := convert src "RGBA").
    assert (mode rgba = "RGBA") as Hm by apply convert_mode.
    destruct (normalize_composite src rgba Hm (convert_size _ _))
      as (mask & Hl & Hmask & Hout).
    destruct (Hout _ eq_refl) as (Hmo & Hso & Hpx).
    eexists. split_and!; [|exact Hmo | exact Hso | | |].
    - unfold normalize. repeat (rewrite Hla; simpl). fold rgba.
      rewrite Hm. simpl. by rewrite Hl.
    - by rewrite Hla.
    - intros Hin. exfalso. apply Hin. rewrite Hla. right. by left.
    - intros _. rewrite Hla. simpl. eauto 10. }
  destruct (decide (mode src = "P")) as [Hp|Hp].
  { set (rgba := convert src "RGBA").
    assert (mode rgba = "RGBA") as Hm by apply convert_mode.
    destruct (normalize_composite src rgba Hm (convert_size _ _))
      as (mask & Hl & Hmask & Hout).
    destruct (Hout _ eq_refl) as (Hmo & Hso & Hpx).
    eexists. split_and!; [|exact Hmo | exact Hso | | |].
    - unfold normalize. repeat (rewrite Hp; simpl). fold rgba.
      repeat (rewrite Hm; simpl). rewrite Hl.
      unfold rgba. by rewrite convert_size.
    - by rewrite Hp.
    - intros Hin. exfalso. apply Hin. rewrite Hp. right. right. by left.
    - intros _. rewrite Hp. simpl. eauto 10. }
  unfold normalize. rewrite bool_decide_eq_false_2.
  2:{ rewrite !elem_of_cons, elem_of_nil. tauto. }
  destruct (decide (mode src = "RGB")) as [Hrgb|Hrgb].
  - rewrite (proj2 (String.eqb_eq _ _) Hrgb). simpl.
    exists src. split_and!; try done.
    + intros Hin. exfalso. apply Hin. rewrite Hrgb. set_solver.
    + rewrite !elem_of_cons, elem_of_nil. tauto.
  - rewrite (proj2 (String.eqb_neq _ _) Hrgb). simpl.
    exists (convert src "RGB"). split_and!; try done.
    + apply convert_mode.
    + apply convert_size.
    + rewrite !elem_of_cons, elem_of_nil. tauto.
Qed.

Lemma normalize_returns src :
  ∃ img, normalize src = Return img ∧ mode img = "RGB" ∧ size img = size src.
Proof. destruct (normalize_cases src) as (out & ? & ? & ? & _). eauto. Qed.

End normalization.

Section successful_runs.
Context `{Pillow}.

Implicit Types (e : env) (w : world) (o p q : PurePath) (img src : image)
  (entry : Z * option Z * string) (keep : bool).

Lemma thumb_path_of_dec p l q : Decision (thumb_path_of p l q).
Proof.
  refine (cast_if (decide (q ∈ l ≫= λ entry,
                                 (λ fmt, thumb_path p entry.2 fmt) <$> cleanup_formats))).
  - apply list_elem_of_bind in e as (entry & Hq & He).
    apply list_elem_of_fmap in Hq as (fmt & -> & Hf). by exists entry, fmt.
  - intros (entry & fmt & He & Hf & ->). apply n.
    apply list_elem_of_bind. exists entry. split; [|done].
    apply list_elem_of_fmap. eauto.
Qed.

(** A successful run: the normalised image, the artifacts, and nothing
    else touched. *)
Lemma generate_thumbnails_written e w original static keep w' :
  Path.wf original = true → Path.wf static = true →
  generate_thumbnails original static keep e w = (Return true, w') →
  let p := resolve original static in
  ∃ f src img,
    files w !! p = Some f ∧ decoded f = Some src ∧ normalize src = Return img
    ∧ files w' !! carousel_path p
      = Some (Encoded "WEBP" webp_carousel (carousel_image img))
    ∧ (∀ entry, entry ∈ THUMBNAIL_SIZES → thumbs_written e img p keep entry w w')
    ∧ (∀ q, q ≠ carousel_path p → ¬ thumb_path_of p THUMBNAIL_SIZES q →
            files w' !! q = files w !! q)
    ∧ (∀ q fl, files w' !! q = Some fl →
               files w !! q = Some fl ∨ artifact_of img p q fl).
Proof.
  intros Ho Hs Hrun p.
  assert (Path.wf p = true) as Hp by (by apply resolve_wf).
  apply generate_thumbnails_true in Hrun
    as (Hlib & Hproc & f & src & img & Hf & Hd & Hn & Hc & Hok & Hall).
  fold p in Hf, Hc, Hok, Hall.
  destruct (generate_all_ok e w p keep f src img Hp Hf Hd Hn Hc Hok)
    as (w2 & Hall' & Hcar & Hth & Hframe & _).
  rewrite Hall in Hall'. injection Hall' as <-.
  exists f, src, img. split_and!; try done.
  intros q fl Hq.
  destruct (decide (q = carousel_path p)) as [->|Hqc].
  { right. left. split; [done |]. rewrite Hcar in Hq. by injection Hq. }
  destruct (thumb_path_of_dec p THUMBNAIL_SIZES q) as [Hqt|Hqt].
  2:{ left. by rewrite <-Hframe. }
  destruct Hqt as (entry & ext & He & Hext & ->).
  destruct (Hth entry He) as (Hwebp & Hjpg & Havif).
  unfold cleanup_formats in Hext.
  apply elem_of_cons in Hext as [->|Hext].
  { right. right. exists entry, "webp", "WEBP", webp_thumb.
    rewrite Hwebp in Hq. injection Hq as <-.
    split_and!; try done. unfold thumb_formats. by left. }
  apply elem_of_cons in Hext as [->|Hext].
  { destruct (save_error e "AVIF" _) as [x|].
    - left. destruct Havif as [Hsame _]. by rewrite <-Hsame.
    - right. right. exists entry, "avif", "AVIF", avif_thumb.
      rewrite Havif in Hq. injection Hq as <-.
      split_and!; try done. unfold thumb_formats. right. by left. }
  apply list_elem_of_singleton in Hext as ->.
  destruct keep.
  - right. right. exists entry, "jpg", "JPEG", jpeg_thumb.
    rewrite Hjpg in Hq. injection Hq as <-.
    split_and!; try done. unfold thumb_formats. right. right. by left.
  - left. by rewrite <-Hjpg.
Qed.

(** The same from the side of the preconditions. *)
Lemma generate_thumbnails_runs e w original static keep f src img :
  let p := resolve original static in
  Path.wf original = true → Path.wf static = true →
  HAS_PILLOW e = true →
  files w !! p = Some f → decoded f = Some src →
  is_image_processable p = true →
  normalize src = Return img →
  save_error e "WEBP" (carousel_path p) = None →
  (∀ entry, entry ∈ THUMBNAIL_SIZES → size_ok e p keep entry = true) →
  ∃ w', generate_thumbnails original static keep e w = (Return true, w')
    ∧ (INFO, "Successfully generated all thumbnails for: " +:+ Path.str p)
      ∈ logged w'.
Proof.
  intros p Ho Hs Hlib Hf Hd Hproc Hn Hc Hok.
  assert (Path.wf p = true) as Hp by (by apply resolve_wf).
  destruct (generate_all_ok e w p keep f src img Hp Hf Hd Hn Hc Hok)
    as (w' & Hall & _ & _ & _ & _ & Hlog).
  exists w'. split; [|done].
  unfold generate_thumbnails. fold p. munfold.
  rewrite Hlib. simpl. rewrite Hf. simpl. rewrite Hproc. simpl.
  by rewrite Hall.
Qed.

End successful_runs.

(** C3: when the two mandatory encoders work, whatever the optional (AVIF)
    encoder does, the call returns [True]; every size has its primary file
    and, when the legacy format is kept, its legacy file; each AVIF failure
    leaves the AVIF path as it was and logs a warning; and when the AVIF
    encoder fails throughout, no AVIF file is produced. *)
Theorem generate_thumbnails_optional_format `{PillowLaws}
    (e : env) (w : world) (original_path static_dir : PurePath) (keep : bool)
    (f : file) (src : image) :
  let p := resolve original_path static_dir in
  Path.wf original_path = true → Path.wf static_dir = true →
  HAS_PILLOW e = true →
  files w !! p = Some f → decoded f = Some src →
  is_image_processable p = true →
  (∀ q, save_error e "WEBP" q = None) →
  (∀ q, save_error e "JPEG" q = None) →
  ∃ img w',
    normalize src = Return img
    ∧ generate_thumbnails original_path static_dir keep e w = (Return true, w')
    ∧ (∀ entry, entry ∈ THUMBNAIL_SIZES →
         files w' !! thumb_path p entry.2 "webp"
           = Some (Encoded "WEBP" webp_thumb (thumb_image img entry))
         ∧ (keep = true →
            files w' !! thumb_path p entry.2 "jpg"
              = Some (Encoded "JPEG" jpeg_thumb (thumb_image img entry)))
         ∧ ∀ x, save_error e "AVIF" (thumb_path p entry.2 "avif") = Some x →
             files w' !! thumb_path p entry.2 "avif"
               = files w !! thumb_path p entry.2 "avif"
             ∧ (WARNING, "Could not save AVIF (pillow-heif needed): " +:+ x)
               ∈ logged w')
    ∧ ((∀ q, save_error e "AVIF" q ≠ None) →
       ∀ q ps im, files w' !! q = Some (Encoded "AVIF" ps im) →
                  files w !! q = Some (Encoded "AVIF" ps im)).
Proof.
  intros p Ho Hs Hlib Hf Hd Hproc Hwebp Hjpeg.
  destruct (normalize_returns src) as (img & Hn & _).
  destruct (generate_thumbnails_runs e w original_path static_dir keep f src img)
    as (w' & Hrun & _); try done.
  { intros entry _. unfold size_ok.
    rewrite !bool_decide_eq_true_2 by done. by destruct keep. }
  destruct (generate_thumbnails_written e w original_path static_dir keep w' Ho Hs Hrun)
    as (f' & src' & img' & Hf' & Hd' & Hn' & Hcar & Hth & Hframe & Hart).
  fold p in Hf', Hcar, Hth, Hframe, Hart.
  assert (img' = img) as -> by congruence.
  exists img, w'. split_and!; [done | done | |].
  - intros entry He. destruct (Hth entry He) as (H1 & H2 & H3).
    split_and!; [done | by intros -> |].
    intros x Hx. by rewrite Hx in H3.
  - intros Hfail q ps im Hq.
    destruct (Hart q _ Hq) as [Hsame|[[_ [=]]|Hthumb]]; [done |].
    destruct Hthumb as (entry & ext & fmt & ps' & He & Hfmt & -> & Heq).
    injection Heq as <- -> ->.
    destruct (Hth entry He) as (_ & _ & H3).
    unfold thumb_formats in Hfmt.
    rewrite !elem_of_cons, elem_of_nil in Hfmt.
    destruct Hfmt as [[=]|[[= -> ->]|[[=]|[]]]].
    destruct (save_error e "AVIF" (thumb_path p entry.2 "avif")) as [x|] eqn:Hx.
    + destruct H3 as [<- _]. done.
    + by apply Hfail in Hx.
Qed.

Lemma generate_thumbnails_optional_format_witness :
  let e := Env true (λ fmt _, if String.eqb fmt "AVIF"
                              then Some "KeyError: 'AVIF'" else None)
               (λ _, None) in
  let src := Raster.solid "RGBA" (2000, 1500) [10; 20; 30; 0] in
  let p := Path.of_string "/srv/static/uploads/photos/abc123.png" in
  let w := @World Raster.pillow {[ p := @Upload Raster.pillow (Some src) ]} [] in
  ∃ img w',
    @normalize Raster.pillow src = Return img
    ∧ @generate_thumbnails Raster.pillow
        (Path.of_string "uploads/photos/abc123.png")
        (Path.of_string "/srv/static") true e w = (Return true, w')
    ∧ (∀ entry, entry ∈ THUMBNAIL_SIZES →
         files w' !! thumb_path p entry.2 "webp"
           = Some (Encoded "WEBP" webp_thumb (thumb_image img entry))
         ∧ (true = true →
            files w' !! thumb_path p entry.2 "jpg"
              = Some (Encoded "JPEG" jpeg_thumb (thumb_image img entry)))
         ∧ ∀ x, save_error e "AVIF" (thumb_path p entry.2 "avif") = Some x →
             files w' !! thumb_path p entry.2 "avif"
               = files w !! thumb_path p entry.2 "avif"
             ∧ (WARNING, "Could not save AVIF (pillow-heif needed): " +:+ x)
               ∈ logged w')
    ∧ ((∀ q, save_error e "AVIF" q ≠ None) →
       ∀ q ps im, files w' !! q = Some (Encoded "AVIF" ps im) →
                  files w !! q = Some (Encoded "AVIF" ps im)).
Proof.
  intros e src p w.
  apply (@generate_thumbnails_optional_format Raster.pillow raster_laws e w
           (Path.of_string "uploads/photos/abc123.png")
           (Path.of_string "/srv/static") true
           (@Upload Raster.pillow (Some src)) src);
    try reflexivity.
Defined.

(** C9: a run that returns [True] has written the carousel copy to
    [{stem}-carousel.webp] in the directory of the original, as WEBP with
    quality 85 and method 6; no thumbnail path is that path, so it is the
    one carousel artifact; every file the run wrote is that copy or a
    thumbnail saved as WEBP with quality 80 and method 6, as AVIF with
    quality 75, or as JPEG with quality 80 and [optimize]; every other path
    is untouched. *)
Theorem generate_thumbnails_artifacts `{Pillow}
    (e : env) (w w' : world) (original_path static_dir : PurePath) (keep : bool) :
  Path.wf original_path = true → Path.wf static_dir = true →
  generate_thumbnails original_path static_dir keep e w = (Return true, w') →
  let p := resolve original_path static_dir in
  let carousel := Path.parent p </: (Path.stem p +:+ "-carousel.webp") in
  ∃ img f src,
    files w !! p = Some f ∧ decoded f = Some src ∧ normalize src = Return img
    ∧ files w' !! carousel
      = Some (Encoded "WEBP" (SaveParams 85 (Some 6) false) (carousel_image img))
    ∧ Path.parent carousel = Path.parent p
    ∧ Path.name carousel = Path.stem p +:+ "-carousel.webp"
    ∧ (∀ entry fmt, entry ∈ THUMBNAIL_SIZES → fmt ∈ ["webp"; "avif"; "jpg"] →
         thumb_path p entry.2 fmt ≠ carousel)
    ∧ (∀ entry, entry ∈ THUMBNAIL_SIZES →
         files w' !! thumb_path p entry.2 "webp"
         = Some (Encoded "WEBP" (SaveParams 80 (Some 6) false)
                   (thumb_image img entry)))
    ∧ (∀ q fl, files w' !! q = Some fl →
         files w !! q = Some fl
         ∨ (q = carousel
            ∧ fl = Encoded "WEBP" (SaveParams 85 (Some 6) false) (carousel_image img))
         ∨ ∃ entry ext fmt ps,
             entry ∈ THUMBNAIL_SIZES
             ∧ q = thumb_path p entry.2 ext
             ∧ fl = Encoded fmt ps (thumb_image img entry)
             ∧ (ext, fmt, ps)
               ∈ [ ("webp", "WEBP", SaveParams 80 (Some 6) false);
                   ("avif", "AVIF", SaveParams 75 None false);
                   ("jpg", "JPEG", SaveParams 80 None true) ]
             ∧ (ext = "jpg" → keep = true))
    ∧ (∀ q, q ≠ carousel → ¬ thumb_path_of p THUMBNAIL_SIZES q →
            files w' !! q = files w !! q).
Proof.
  intros Ho Hs Hrun p carousel.
  assert (Path.wf p = true) as Hp by (by apply resolve_wf).
  destruct (generate_thumbnails_written e w original_path static_dir keep w' Ho Hs Hrun)
    as (f & src & img & Hf & Hd & Hn & Hcar & Hth & Hframe & Hart).
  fold p in Hf, Hcar, Hth, Hframe, Hart.
  exists img, f, src. split_and!; try done.
  - apply parent_join_part. by apply carousel_name_good.
  - apply name_join_part. by apply carousel_name_good.
  - intros entry fmt He Hfmt Heq. by eapply (carousel_not_thumb p entry fmt).
  - intros entry He. by destruct (Hth entry He) as (? & _).
  - intros q fl Hq.
    destruct (Hart q fl Hq) as [Hsame|[Hc|Hthumb]]; [by left | by right; left |].
    destruct Hthumb as (entry & ext & fmt & ps & He & Hfmt & -> & ->).
    destruct (decide (ext = "jpg" ∧ keep = false)) as [[-> ->]|Hkeep].
    + left. destruct (Hth entry He) as (_ & <- & _). done.
    + right. right. exists entry, ext, fmt, ps. split_and!; try done.
      intros ->. destruct keep; [done | by destruct Hkeep].
Qed.

Lemma generate_thumbnails_artifacts_witness :
  let e := Env true (λ _ _, None) (λ _, None) in
  let src := Raster.solid "RGB" (2000, 1500) [10; 20; 30] in
  let p := Path.of_string "/srv/static/uploads/photos/abc123.jpg" in
  let w := @World Raster.pillow {[ p := @Upload Raster.pillow (Some src) ]} [] in
  ∃ w' img,
    @generate_thumbnails Raster.pillow
      (Path.of_string "uploads/photos/abc123.jpg")
      (Path.of_string "/srv/static") true e w = (Return true, w')
    ∧ files w' !! Path.of_string "/srv/static/uploads/photos/abc123-carousel.webp"
      = Some (Encoded "WEBP" (SaveParams 85 (Some 6) false) (carousel_image img)).
Proof.
  intros e src p w.
  destruct (@generate_thumbnails_runs Raster.pillow e w
              (Path.of_string "uploads/photos/abc123.jpg")
              (Path.of_string "/srv/static") true
              (@Upload Raster.pillow (Some src)) src src)
    as (w' & Hrun & _); try reflexivity.
  destruct (@generate_thumbnails_artifacts Raster.pillow e w w'
              (Path.of_string "uploads/photos/abc123.jpg")
              (Path.of_string "/srv/static") true eq_refl eq_refl Hrun)
    as (img & f & src' & Hf & Hd & Hn & Hcar & _).
  exists w', img. split; [exact Hrun | exact Hcar].
Defined.

(** C2, as the code has it: only the AVIF save has a handler of its own.
    When the sizes before [x] encode and a mandatory encoder raises [err]
    for the size [x], the exception reaches the outer handler: the call
    logs the error and returns [False], the sizes after [x] are not
    processed (their paths are as before the call), and what was written
    before the failure stays. *)
Theorem generate_thumbnails_mandatory_failure `{PillowLaws}
    (e : env) (w : world) (original_path static_dir : PurePath) (keep : bool)
    (f : file) (src : image)
    (pre post : list (Z * option Z * string)) (x : Z * option Z * string) :
  let p := resolve original_path static_dir in
  Path.wf original_path = true → Path.wf static_dir = true →
  HAS_PILLOW e = true →
  files w !! p = Some f → decoded f = Some src →
  is_image_processable p = true →
  save_error e "WEBP" (carousel_path p) = None →
  THUMBNAIL_SIZES = pre ++ x :: post →
  (∀ entry, entry ∈ pre → size_ok e p keep entry = true) →
  size_ok e p keep x = false →
  ∃ img err w',
    normalize src = Return img
    ∧ generate_thumbnails original_path static_dir keep e w = (Return false, w')
    ∧ (save_error e "WEBP" (thumb_path p x.2 "webp") = Some err
       ∨ (keep = true ∧ save_error e "JPEG" (thumb_path p x.2 "jpg") = Some err))
    ∧ last (logged w')
      = Some (ERROR, "Error generating thumbnails for " +:+ Path.str p
                     +:+ ": " +:+ err)
    ∧ (∀ entry fmt, entry ∈ post → fmt ∈ ["webp"; "avif"; "jpg"] →
         files w' !! thumb_path p entry.2 fmt = files w !! thumb_path p entry.2 fmt)
    ∧ (∀ entry, entry ∈ pre → thumbs_written e img p keep entry w w')
    ∧ files w' !! carousel_path p
      = Some (Encoded "WEBP" webp_carousel (carousel_image img)).
Proof.
  intros p Ho Hs Hlib Hf Hd Hproc Hc Hsplit Hpre Hx.
  assert (Path.wf p = true) as Hp by (by apply resolve_wf).
  destruct (normalize_returns src) as (img & Hn & _).
  set (w1 := World (<[carousel_path p
                      := Encoded "WEBP" webp_carousel (carousel_image img)]> (files w))
                   (logged w ++ [(INFO, "Generated carousel version: "
                                        +:+ Path.str (carousel_path p))])).
  assert (∀ entry, entry ∈ pre ++ x :: post → entry ∈ THUMBNAIL_SIZES) as Hin
    by (by rewrite Hsplit).
  destruct (thumbs_loop_fail e img p keep pre x post w1 Hp Hin)
    as (err & w2 & Hloop & Hw2 & Hpost & Hlog & Herr); [|done|done|].
  { rewrite <-Hsplit. apply THUMBNAIL_SIZES_suffixes. }
  pose proof (thumbs_loop_frame e img p keep (pre ++ x :: post) w1) as Hframe.
  rewrite Hloop in Hframe. simpl in Hframe.
  assert (∀ entry fmt, entry ∈ THUMBNAIL_SIZES → fmt ∈ cleanup_formats →
            files w1 !! thumb_path p entry.2 fmt = files w !! thumb_path p entry.2 fmt)
    as Hw1.
  { intros entry fmt He Hfmt. subst w1. simpl.
    rewrite lookup_insert_ne; [done |]. by apply carousel_not_thumb. }
  exists img, err. eexists. split_and!; [done | | exact Herr | | | |].
  - unfold generate_thumbnails. fold p. munfold.
    rewrite Hlib. simpl. rewrite Hf. simpl. rewrite Hproc. simpl.
    unfold generate_all. munfold.
    rewrite (Image_open_some p e w f src Hf Hd), Hn, Hc.
    cbn [files logged]. fold w1. rewrite Hsplit, Hloop. reflexivity.
  - simpl. by rewrite last_snoc.
  - intros entry fmt He Hfmt. simpl. rewrite Hpost.
    + apply Hw1; [|done]. rewrite Hsplit, elem_of_app. right. by right.
    + by exists entry, fmt.
  - intros entry He.
    eapply (thumbs_written_later _ _ _ _ _ _ w2);
      [done | eexists; reflexivity |].
    eapply thumbs_written_earlier; [|by apply Hw2].
    intros fmt Hfmt. apply Hw1; [|done]. rewrite Hsplit, elem_of_app. by left.
  - simpl. rewrite Hframe.
    + subst w1. simpl. by rewrite lookup_insert_eq.
    + intros (entry & fmt & He & Hfmt & Heq).
      apply (carousel_not_thumb p entry fmt); auto.
Qed.

Lemma generate_thumbnails_mandatory_failure_witness :
  let bad := Path.of_string "/srv/static/uploads/photos/a-thumb-md.webp" in
  let e := Env true (λ fmt q, if bool_decide (q = bad) then Some "disk full" else None)
               (λ _, None) in
  let src := Raster.solid "RGB" (2000, 1500) [10; 20; 30] in
  let p := Path.of_string "/srv/static/uploads/photos/a.jpg" in
  let w := @World Raster.pillow {[ p := @Upload Raster.pillow (Some src) ]} [] in
  ∃ w',
    @generate_thumbnails Raster.pillow
      (Path.of_string "uploads/photos/a.jpg") (Path.of_string "/srv/static")
      true e w = (Return false, w')
    ∧ last (logged w')
      = Some (ERROR, "Error generating thumbnails for "
                     +:+ "/srv/static/uploads/photos/a.jpg: disk full")
    ∧ files w' !! Path.of_string "/srv/static/uploads/photos/a-thumb-detail.webp"
      = None.
Proof.
  intros bad e src p w.
  destruct (@generate_thumbnails_mandatory_failure Raster.pillow raster_laws e w
              (Path.of_string "uploads/photos/a.jpg") (Path.of_string "/srv/static")
              true (@Upload Raster.pillow (Some src)) src
              [(110, Some 110, "thumb-sm")] [(165, Some 165, "thumb-detail");
                                             (330, Some 330, "thumb-detail-2x")]
              (220, Some 220, "thumb-md"))
    as (img & err & w' & Hn & Hrun & Herr & Hlast & Hpost & _);
    try reflexivity.
  { intros entry ->%list_elem_of_singleton. reflexivity. }
  exists w'. split; [exact Hrun |].
  destruct Herr as [Herr|[_ Herr]]; [|discriminate Herr].
  injection Herr as <-. split; [exact Hlast |].
  exact (Hpost (165, Some 165, "thumb-detail") "webp"
           (list_elem_of_here _ _) (list_elem_of_here _ _)).
Defined.

(** C2 as stated fails: with the WEBP encoder raising for the first size,
    the call returns [False] and no file of a later size is written. *)
Lemma generate_thumbnails_webp_failure_aborts :
  let bad := Path.of_string "/srv/static/uploads/photos/a-thumb-sm.webp" in
  let e := Env true (λ fmt q, if bool_decide (q = bad) then Some "disk full" else None)
               (λ _, None) in
  let src := Raster.solid "RGB" (2000, 1500) [10; 20; 30] in
  let p := Path.of_string "/srv/static/uploads/photos/a.jpg" in
  let w := @World Raster.pillow {[ p := @Upload Raster.pillow (Some src) ]} [] in
  let r := @generate_thumbnails Raster.pillow
             (Path.of_string "uploads/photos/a.jpg") (Path.of_string "/srv/static")
             true e w in
  r.1 = Return false
  ∧ files r.2 !! Path.of_string "/srv/static/uploads/photos/a-thumb-md.webp" = None
  ∧ files r.2 !! Path.of_string "/srv/static/uploads/photos/a-thumb-md.jpg" = None
  ∧ files r.2 !! Path.of_string "/srv/static/uploads/photos/a-thumb-detail.webp" = None
  ∧ files r.2 !! Path.of_string "/srv/static/uploads/photos/a-thumb-detail-2x.webp" = None
  ∧ logged r.2
    = [ (INFO, "Generated carousel version: /srv/static/uploads/photos/a-carousel.webp");
        (ERROR, "Error generating thumbnails for /srv/static/uploads/photos/a.jpg: disk full") ].
Proof. repeat split; vm_compute; reflexivity. Qed.

Section dimensions.
Context `{PillowLaws}.






End dimensions.





(** ** The cleanup *)

Section delete_facts.
Context `{Pillow}.

Implicit Types (e : env) (w : world) (o p q : PurePath) (n : Z).

Lemma delete_thumb_run q n e w :
  delete_thumb q n e w
  = match files w !! q with
    | None => (Return n, w)
    | Some _ =>
        match unlink_error e q with
        | Some x =>
            (Return n,
             World (files w)
               (logged w ++ [(ERROR, "Error deleting thumbnail " +:+ Path.str q
                                     +:+ ": " +:+ x)]))
        | None =>
            (Return (n + 1),
             World (delete q (files w))
               (logged w ++ [(INFO, "Deleted thumbnail: " +:+ Path.str q)]))
        end
    end.
Proof.
  unfold delete_thumb, unlink. munfold.
  destruct (files w !! q) as [fl|] eqn:Hq; simpl; [|done].
  rewrite Hq. by destruct (unlink_error e q).
Qed.

Lemma delete_carousel_run q n e w :
  delete_carousel q n e w
  = match files w !! q with
    | None => (Return n, w)
    | Some _ =>
        match unlink_error e q with
        | Some x =>
            (Return n,
             World (files w)
               (logged w ++ [(ERROR, "Error deleting carousel version: " +:+ x)]))
        | None =>
            (Return (n + 1),
             World (delete q (files w))
               (logged w ++ [(INFO, "Deleted carousel version: " +:+ Path.str q)]))
        end
    end.
Proof.
  unfold delete_carousel, unlink. munfold.
  destruct (files w !! q) as [fl|] eqn:Hq; simpl; [|done].
  rewrite Hq. by destruct (unlink_error e q).
Qed.

(** A loop whose body returns and keeps [I] returns and keeps [I]. *)
Lemma for_acc_invariant {A S} (I : S → world → Prop)
    (l : list A) (body : S → A → M S) e :
  (∀ s x w, x ∈ l → I s w →
     ∃ s' w', body s x e w = (Return s', w') ∧ I s' w') →
  ∀ s w, I s w →
    ∃ s' w', for_acc l body s e w = (Return s', w') ∧ I s' w'.
Proof.
  induction l as [|x l IH]; intros Hbody s w HI.
  - exists s, w. done.
  - destruct (Hbody s x w) as (s1 & w1 & Hrun & HI1); [by left | done |].
    destruct (IH (λ s x w Hx, Hbody s x w (list_elem_of_further _ _ _ Hx)) s1 w1 HI1)
      as (s' & w' & Hrun' & HI').
    exists s', w'. split; [|done]. simpl. munfold. by rewrite Hrun.
Qed.

Lemma delete_thumb_invariant e D I q n w :
  cleanup_invariant e D I → D q → I n w →
  ∃ n' w', delete_thumb q n e w = (Return n', w') ∧ I n' w'.
Proof.
  intros HI Hq Hn. rewrite delete_thumb_run. specialize (HI n w q Hq Hn).
  destruct (files w !! q); [|by eauto].
  destruct (unlink_error e q) as [x|]; [|by eauto].
  eexists _, _. split; [done |].
  replace ("Error deleting thumbnail " +:+ Path.str q +:+ ": " +:+ x)
    with (("Error deleting thumbnail " +:+ Path.str q +:+ ": ") +:+ x)
    by (by rewrite !append_assoc).
  apply HI.
Qed.

Lemma delete_carousel_invariant e D I q n w :
  cleanup_invariant e D I → D q → I n w →
  ∃ n' w', delete_carousel q n e w = (Return n', w') ∧ I n' w'.
Proof.
  intros HI Hq Hn. rewrite delete_carousel_run. specialize (HI n w q Hq Hn).
  destruct (files w !! q); [|by eauto].
  destruct (unlink_error e q) as [x|]; by eauto.
Qed.

(** The run of [delete_thumbnails] on an existing original. *)
Lemma delete_thumbnails_found e I original static w :
  let p := resolve original static in
  cleanup_invariant e (derived_path p) I → is_Some (files w !! p) → I 0 w →
  ∃ n w1,
    I n w1
    ∧ delete_thumbnails original static e w
      = (Return true,
         World (files w1)
           (logged w1 ++ [(INFO, "Deleted " +:+ pretty n
                                 +:+ " thumbnail variants for: " +:+ Path.str p)])).
Proof.
  intros p HI Hp H0.
  destruct (delete_carousel_invariant e _ I (carousel_path p) 0 w HI)
    as (n1 & w1 & Hrun1 & H1); [by left | done |].
  destruct (for_acc_invariant I THUMBNAIL_SIZES
              (λ deleted_count '(width, height, suffix),
                 for_acc ["webp"; "avif"; "jpg"]
                   (λ deleted_count fmt,
                      delete_thumb (thumb_path p suffix fmt) deleted_count)
                   deleted_count) e) with (s := n1) (w := w1)
    as (n2 & w2 & Hrun2 & H2); [|done|].
  { intros s [[width height] suffix] w0 He Hs.
    apply (for_acc_invariant I); [|done].
    intros s0 fmt w3 Hfmt Hs0. apply (delete_thumb_invariant e _ I _ _ _ HI); [|done].
    right. by exists (width, height, suffix), fmt. }
  exists n2, w2. split; [done |].
  unfold delete_thumbnails. fold p. munfold.
  rewrite bool_decide_eq_true_2 by done. cbv beta iota delta [negb].
  rewrite Hrun1. cbv beta iota. rewrite Hrun2. done.
Qed.



End delete_facts.




Example delete_thumbnails_never_generated :
  let e := Env true (λ _ _, None) (λ _, None) in
  let p := Path.of_string "/srv/static/uploads/photos/abc123.jpg" in
  let w := @World Raster.pillow {[ p := @Upload Raster.pillow None ]} [] in
  @delete_thumbnails Raster.pillow
    (Path.of_string "uploads/photos/abc123.jpg") (Path.of_string "/srv/static") e w
  = (Return true,
     World (files w)
       [(INFO, "Deleted 0 thumbnail variants for: /srv/static/uploads/photos/abc123.jpg")]).
Proof. reflexivity. Qed.

(** C8 on a concrete cleanup: the unlink of the carousel copy raises.  The
    error is logged and the remaining files are processed, but
    [delete_thumbnails] returns [True], and so does
    [delete_original_and_thumbnails], which leaves the carousel copy
    behind. *)
Lemma delete_ignores_failed_unlink :
  let p := Path.of_string "/srv/static/uploads/photos/a.jpg" in
  let car := Path.of_string "/srv/static/uploads/photos/a-carousel.webp" in
  let sm := Path.of_string "/srv/static/uploads/photos/a-thumb-sm.webp" in
  let e := Env true (λ _ _, None)
               (λ q, if bool_decide (q = car) then Some "Permission denied" else None) in
  let up := @Upload Raster.pillow None in
  let w := @World Raster.pillow (<[p := up]> (<[car := up]> {[ sm := up ]})) [] in
  @delete_thumbnails Raster.pillow
    (Path.of_string "uploads/photos/a.jpg") (Path.of_string "/srv/static") e w
  = (Return true,
     World (<[p := up]> {[ car := up ]})
       [ (ERROR, "Error deleting carousel version: Permission denied");
         (INFO, "Deleted thumbnail: /srv/static/uploads/photos/a-thumb-sm.webp");
         (INFO, "Deleted 1 thumbnail variants for: /srv/static/uploads/photos/a.jpg") ])
  ∧ @delete_original_and_thumbnails Raster.pillow
      (Path.of_string "uploads/photos/a.jpg") (Path.of_string "/srv/static") e w
    = (Return true,
       World {[ car := up ]}
         [ (ERROR, "Error deleting carousel version: Permission denied");
           (INFO, "Deleted thumbnail: /srv/static/uploads/photos/a-thumb-sm.webp");
           (INFO, "Deleted 1 thumbnail variants for: /srv/static/uploads/photos/a.jpg");
           (INFO, "Deleted original image: /srv/static/uploads/photos/a.jpg") ]).
Proof. split; reflexivity. Qed.




(** * Further properties of the module *)

(** ** Names, stems and suffixes *)

Section suffix_facts.

Implicit Types (s u v x y : string) (c a : ascii).

Lemma len_append x y : Str.len (x +:+ y) = Str.len x + Str.len y.
Proof.
  unfold Str.len. induction x as [|a x IH].
  - rewrite append_nil_l. simpl. lia.
  - rewrite append_cons. simpl String.length. lia.
Qed.

Lemma take_append x y : Str.take (Str.len x) (x +:+ y) = x.
Proof.
  unfold Str.take, Str.len. rewrite Nat2Z.id.
  induction x as [|a x IH]; [by destruct y |].
  rewrite append_cons. simpl. by rewrite IH.
Qed.

Lemma substring_all x : String.substring 0 (String.length x) x = x.
Proof. induction x as [|a x IH]; [done |]. simpl. by rewrite IH. Qed.

Lemma drop_append x y : Str.drop (Str.len x) (x +:+ y) = y.
Proof.
  unfold Str.drop, Str.len. rewrite Nat2Z.id.
  induction x as [|a x IH].
  - rewrite append_nil_l. simpl. rewrite Nat.sub_0_r. apply substring_all.
  - rewrite append_cons. simpl. apply IH.
Qed.

Lemma rfind_from_none c s i :
  Str.contains c s = false → Str.rfind_from c s i = -1.
Proof.
  revert i. induction s as [|a s IH]; intros i Hs; [done |].
  simpl in Hs. apply orb_false_iff in Hs as [Ha Hs].
  simpl. by rewrite (IH _ Hs), Ha.
Qed.

Lemma rfind_from_last c u v i :
  0 ≤ i → Str.contains c v = false →
  Str.rfind_from c (u +:+ String c v) i = i + Str.len u.
Proof.
  revert i. induction u as [|a u IH]; intros i Hi Hv.
  - rewrite append_nil_l. simpl.
    rewrite (rfind_from_none c v _ Hv), Ascii.eqb_refl. simpl.
    unfold Str.len. simpl. lia.
  - rewrite append_cons. simpl. rewrite (IH (i + 1)) by (lia || done).
    assert (0 ≤ Str.len u) by (unfold Str.len; lia).
    rewrite (proj2 (Z.leb_le _ _)) by lia.
    unfold Str.len in *. simpl String.length. lia.
Qed.

(** A string without [c], or its split at the last [c]. *)
Lemma last_split c s :
  Str.contains c s = false
  ∨ ∃ u v, s = u +:+ String c v ∧ Str.contains c v = false.
Proof.
  induction s as [|a s IH]; [by left |].
  destruct IH as [Hs|(u & v & -> & Hv)].
  - destruct (Ascii.eqb a c) eqn:Ha.
    + right. exists "", s. apply Ascii.eqb_eq in Ha as ->. done.
    + left. simpl. by rewrite Ha, Hs.
  - right. exists (String a u), v. by rewrite append_cons.
Qed.

(** The name is the stem followed by the suffix; a suffix is empty or a
    dot and a non-empty rest without dots, after a non-empty stem. *)
Lemma name_stem_suffix p :
  Path.name p = Path.stem p +:+ Path.suffix p
  ∧ (Path.suffix p = ""
     ∨ ∃ v, Path.suffix p = String Str.dot v).
Proof.
  unfold Path.stem, Path.suffix. set (n := Path.name p).
  destruct (last_split Str.dot n) as [Hn|(u & v & Hn & Hv)].
  - unfold Str.rfind. rewrite (rfind_from_none _ _ _ Hn). simpl.
    split; [by rewrite append_nil_r | by left].
  - unfold Str.rfind. rewrite Hn, (rfind_from_last _ _ _ _ (Z.le_refl 0) Hv).
    rewrite Z.add_0_l.
    destruct ((0 <? Str.len u) && (Str.len u <? _ - 1)).
    + rewrite take_append, drop_append. split; [done | right; by exists v].
    + split; [by rewrite append_nil_r | by left].
Qed.

Lemma suffix_of_name d s v :
  Path.good_part (s +:+ String Str.dot v) = true →
  s ≠ "" → v ≠ "" → Str.contains Str.dot v = false →
  Path.suffix (d </: (s +:+ String Str.dot v)) = String Str.dot v.
Proof.
  intros Hgood Hs Hv Hdot. unfold Path.suffix.
  rewrite name_join_part by done.
  unfold Str.rfind. rewrite (rfind_from_last _ _ _ _ (Z.le_refl 0) Hdot).
  rewrite Z.add_0_l, len_append.
  assert (0 < Str.len s) by (unfold Str.len; destruct s; [done | simpl; lia]).
  assert (1 < Str.len (String Str.dot v))
    by (unfold Str.len; destruct v; [done | simpl; lia]).
  rewrite (proj2 (Z.ltb_lt _ _)) by lia.
  rewrite (proj2 (Z.ltb_lt _ _)) by lia.
  simpl. apply drop_append.
Qed.

Lemma eqb_lower_char_dot a :
  Ascii.eqb (Str.lower_char a) Str.dot = Ascii.eqb a Str.dot.
Proof. by destruct a as [[] [] [] [] [] [] [] []]. Qed.

Lemma eqb_lower_char_sep a :
  Ascii.eqb (Str.lower_char a) Str.sep = Ascii.eqb a Str.sep.
Proof. by destruct a as [[] [] [] [] [] [] [] []]. Qed.

Lemma contains_lower_dot s :
  Str.contains Str.dot (Str.lower s) = Str.contains Str.dot s.
Proof.
  induction s as [|a s IH]; [done |]. simpl.
  by rewrite eqb_lower_char_dot, IH.
Qed.

Lemma contains_lower_sep s :
  Str.contains Str.sep (Str.lower s) = Str.contains Str.sep s.
Proof.
  induction s as [|a s IH]; [done |]. simpl.
  by rewrite eqb_lower_char_sep, IH.
Qed.

(** An extension that lowers to one of the list is a dot and a non-empty
    rest without dots or separators. *)
Lemma processable_ext_shape ext :
  Str.lower ext ∈ processable_exts →
  ∃ v, ext = String Str.dot v ∧ v ≠ ""
    ∧ Str.contains Str.dot v = false ∧ Str.contains Str.sep ext = false.
Proof.
  intros Hin.
  assert (Str.contains Str.sep ext = false) as Hsep.
  { rewrite <-contains_lower_sep.
    unfold processable_exts in Hin. rewrite !elem_of_cons, elem_of_nil in Hin.
    destruct Hin as [->|[->|[->|[->|[->|[->|[->|[]]]]]]]]; reflexivity. }
  destruct ext as [|a v].
  { unfold processable_exts in Hin. rewrite !elem_of_cons, elem_of_nil in Hin.
    simpl in Hin.
    by destruct Hin as [[=]|[[=]|[[=]|[[=]|[[=]|[[=]|[[=]|[]]]]]]]]. }
  assert (a = Str.dot ∧ v ≠ "" ∧ Str.contains Str.dot (Str.lower v) = false)
    as (-> & Hv & Hdot).
  { unfold processable_exts in Hin. rewrite !elem_of_cons, elem_of_nil in Hin.
    simpl in Hin.
    assert (Str.lower_char a = Str.dot → a = Str.dot) as Ha.
    { intros Hl. apply Ascii.eqb_eq. rewrite <-eqb_lower_char_dot, Hl.
      apply Ascii.eqb_refl. }
    destruct Hin as [Hin|[Hin|[Hin|[Hin|[Hin|[Hin|[Hin|[]]]]]]]];
      injection Hin as Hl Hr; rewrite Hr;
      (split_and!; [by apply Ha | by destruct v | reflexivity]). }
  exists v. split_and!; try done. by rewrite <-contains_lower_dot.
Qed.

End suffix_facts.

(** [is_image_processable] looks at what follows the last dot of the name
    only, in any letter case, and wants a non-empty stem before it: a file
    named [s.v] (no dot in [v]) is processable exactly when [s] is not
    empty and [.v] lowers to one of the seven extensions. *)
Theorem is_image_processable_last_extension (d : PurePath) (s v : string) :
  Path.good_part (s +:+ String Str.dot v) = true →
  Str.contains Str.dot v = false →
  is_image_processable (d </: (s +:+ String Str.dot v)) = true
  ↔ s ≠ "" ∧ Str.lower (String Str.dot v) ∈ processable_exts.
Proof.
  intros Hgood Hdot. unfold is_image_processable. rewrite bool_decide_eq_true.
  destruct (decide (s = "")) as [->|Hs].
  { unfold Path.suffix. rewrite name_join_part by done.
    rewrite append_nil_l. unfold Str.rfind. simpl.
    rewrite (rfind_from_none _ _ _ Hdot). simpl.
    unfold processable_exts. rewrite !elem_of_cons, elem_of_nil.
    split; [|by intros [? _]].
    by intros [[=]|[[=]|[[=]|[[=]|[[=]|[[=]|[[=]|[]]]]]]]]. }
  destruct (decide (v = "")) as [->|Hv].
  { unfold Path.suffix. rewrite name_join_part by done.
    unfold Str.rfind.
    rewrite (rfind_from_last _ _ _ _ (Z.le_refl 0) Hdot), len_append.
    replace (Str.len (String Str.dot "")) with 1 by reflexivity.
    rewrite Z.add_0_l, (proj2 (Z.ltb_ge (Str.len s) _)) by lia.
    rewrite andb_false_r. simpl.
    unfold processable_exts. rewrite !elem_of_cons, !elem_of_nil.
    split.
    - intros Hin. repeat (destruct Hin as [Hin|Hin]; [discriminate Hin |]). done.
    - intros [_ Hin].
      change (Str.lower_char Str.dot) with Str.dot in Hin.
      repeat (destruct Hin as [Hin|Hin]; [discriminate Hin |]). done. }
  rewrite suffix_of_name by done. tauto.
Qed.

Lemma is_image_processable_last_extension_witness :
  is_image_processable
    (Path.of_string "/srv/static/uploads/photos" </: ("IMG_0001.tar" +:+ String Str.dot "JPG"))
  = true
  ↔ "IMG_0001.tar" ≠ "" ∧ Str.lower (String Str.dot "JPG") ∈ processable_exts.
Proof.
  apply (is_image_processable_last_extension
           (Path.of_string "/srv/static/uploads/photos") "IMG_0001.tar" "JPG");
    reflexivity.
Defined.

(** A name without a dot has no extension and is never processable. *)
Lemma is_image_processable_no_dot p :
  Str.contains Str.dot (Path.name p) = false → is_image_processable p = false.
Proof.
  intros Hn. unfold is_image_processable, Path.suffix, Str.rfind.
  by rewrite (rfind_from_none _ _ _ Hn).
Qed.

(** ** The original is not one of its derived paths *)

Section derived_names_facts.

Implicit Types (s t u x y : string) (p q : PurePath).

Lemma derived_tail_dash t : t ∈ derived_tails → ∃ r, t = String "-" r.
Proof.
  intros Ht.
  assert (Forall (λ t, ∃ r, t = String "-" r) derived_tails) as Hall.
  { unfold derived_tails, THUMBNAIL_SIZES, cleanup_formats. simpl.
    repeat (constructor; [by eexists |]). constructor. }
  rewrite Forall_forall in Hall. by apply Hall.
Qed.

Lemma derived_path_tail p q :
  derived_path p q →
  ∃ t, t ∈ derived_tails ∧ q = Path.parent p </: (Path.stem p +:+ t).
Proof.
  intros [->|(entry & fmt & He & Hf & ->)].
  - exists "-carousel.webp". split; [by left | done].
  - exists ("-" +:+ entry.2 +:+ "." +:+ fmt). split; [|done].
    unfold derived_tails. right. apply list_elem_of_bind.
    exists entry. split; [|done]. apply list_elem_of_fmap. eauto.
Qed.

Lemma derived_name_good p t :
  Path.wf p = true → t ∈ derived_tails →
  Path.good_part (Path.stem p +:+ t) = true.
Proof.
  intros Hp Ht. unfold derived_tails in Ht.
  apply elem_of_cons in Ht as [->|Ht]; [by apply carousel_name_good |].
  apply list_elem_of_bind in Ht as (entry & Ht & He).
  apply list_elem_of_fmap in Ht as (fmt & -> & Hf).
  by apply (thumb_path_good p entry fmt).
Qed.

Lemma original_not_derived p : Path.wf p = true → ¬ derived_path p p.
Proof.
  intros Hp (t & Ht & Heq)%derived_path_tail.
  rewrite join_str_part in Heq by (by apply derived_name_good).
  destruct p as [r l]. unfold Path.parent in Heq. simpl in Heq.
  injection Heq as Heq.
  destruct l as [|n l _] using rev_ind.
  { by destruct (Path.stem _ +:+ t). }
  rewrite removelast_last in Heq. apply app_inj_tail in Heq as [_ Hn].
  destruct (name_stem_suffix (MkPath r (l ++ [n]))) as [Hname Hsuf].
  assert (Path.name (MkPath r (l ++ [n])) = n) as Hnn
    by (unfold Path.name; simpl; by rewrite last_last).
  rewrite Hnn in Hname. rewrite Hname in Hn at 1.
  apply append_inv_head in Hn.
  destruct (derived_tail_dash t Ht) as [x ->].
  destruct Hsuf as [Hsuf|[v Hsuf]]; rewrite Hsuf in Hn; discriminate Hn.
Qed.

End derived_names_facts.

(** ** Derived paths of different originals do not collide *)

Section collisions.

Implicit Types (s t u x y : string) (p q : PurePath).

Lemma append_eq_inv s1 t1 s2 t2 :
  s1 +:+ t1 = s2 +:+ t2 →
  (∃ u, s1 = s2 +:+ u ∧ t2 = u +:+ t1) ∨ (∃ u, s2 = s1 +:+ u ∧ t1 = u +:+ t2).
Proof.
  revert s2. induction s1 as [|a s1 IH]; intros s2 Heq.
  - right. exists s2. by rewrite !append_nil_l in *.
  - destruct s2 as [|b s2].
    + left. exists (String a s1). by rewrite !append_nil_l in *.
    + rewrite !append_cons in Heq. injection Heq as -> Heq.
      destruct (IH s2 Heq) as [(u & -> & ->)|(u & -> & ->)].
      * left. exists u. by rewrite append_cons.
      * right. exists u. by rewrite append_cons.
Qed.

Lemma prefix_in_prefixes u t : u ∈ prefixes (u +:+ t).
Proof.
  induction u as [|a u IH].
  - destruct t; by left.
  - rewrite append_cons. simpl. right. apply list_elem_of_fmap. eauto.
Qed.

(** No derived tail ends in another one. *)
Lemma derived_tails_no_suffix :
  Forall (λ t1, Forall (λ t2, Forall (λ u, t2 = u +:+ t1 → u = "") (prefixes t2))
                  derived_tails) derived_tails.
Proof. apply (bool_decide_unpack _). vm_compute. exact I. Qed.

Lemma derived_names_inj s1 t1 s2 t2 :
  t1 ∈ derived_tails → t2 ∈ derived_tails →
  s1 +:+ t1 = s2 +:+ t2 → s1 = s2 ∧ t1 = t2.
Proof.
  intros Ht1 Ht2 Heq.
  pose proof derived_tails_no_suffix as Hno.
  assert (∀ a b u, a ∈ derived_tails → b ∈ derived_tails → b = u +:+ a → u = "")
    as Hsuf.
  { intros a b u Ha Hb Hu.
    rewrite Forall_forall in Hno. specialize (Hno a Ha).
    rewrite Forall_forall in Hno. specialize (Hno b Hb).
    rewrite Forall_forall in Hno. apply (Hno u); [|done].
    rewrite Hu. apply prefix_in_prefixes. }
  destruct (append_eq_inv _ _ _ _ Heq) as [(u & -> & Hu)|(u & -> & Hu)].
  - pose proof (Hsuf _ _ _ Ht1 Ht2 Hu) as ->.
    rewrite append_nil_r. by rewrite append_nil_l in Hu.
  - pose proof (Hsuf _ _ _ Ht2 Ht1 Hu) as ->.
    rewrite append_nil_r. by rewrite append_nil_l in Hu.
Qed.

(** Two originals that share a derived path lie in the same directory and
    have the same stem; so originals in different directories, or with
    different stems, never write to or delete each other's derived
    files. *)
Theorem derived_paths_disjoint (p1 p2 q : PurePath) :
  Path.wf p1 = true → Path.wf p2 = true →
  derived_path p1 q → derived_path p2 q →
  Path.parent p1 = Path.parent p2 ∧ Path.stem p1 = Path.stem p2.
Proof.
  intros Hp1 Hp2 (t1 & Ht1 & ->)%derived_path_tail (t2 & Ht2 & Heq)%derived_path_tail.
  rewrite !join_str_part in Heq by (by apply derived_name_good).
  injection Heq as Hroot Htail.
  apply app_inj_tail in Htail as [Htail Hname].
  apply derived_names_inj in Hname as [Hstem _]; [|done..].
  split; [|done]. unfold Path.parent in *. simpl in *. by f_equal.
Qed.

Lemma derived_paths_disjoint_witness :
  let p1 := Path.of_string "/srv/static/uploads/photos/a.jpg" in
  let p2 := Path.of_string "/srv/static/uploads/photos/a.png" in
  Path.parent p1 = Path.parent p2 ∧ Path.stem p1 = Path.stem p2.
Proof.
  intros p1 p2.
  apply (derived_paths_disjoint p1 p2 (carousel_path p1));
    [reflexivity | reflexivity | by left | by left].
Defined.

End collisions.

(** ** [get_thumbnail_paths] on any format list *)

Section path_table_any.

Implicit Types (m : gmap string (list string)) (fmts : list string).

Lemma format_loop_any (f : string → string) fmts m :
  (∀ fmt, fmt ∈ fmts → is_Some (m !! fmt)) →
  ∃ m', for_opt fmts (λ thumbs fmt, thumbs_append thumbs fmt (f fmt)) m = Some m'
    ∧ ∀ k, m' !! k
           = (λ l, l ++ replicate (count_occ string_dec fmts k) (f k)) <$> m !! k.
Proof.
  revert m. induction fmts as [|fmt fmts IH]; intros m Hm.
  - exists m. split; [done |]. intros k. simpl.
    destruct (m !! k); simpl; by rewrite ?app_nil_r.
  - destruct (Hm fmt) as [l Hl]; [by left |].
    destruct (IH (<[fmt := l ++ [f fmt]]> m)) as (m' & Hrun & Hm').
    { intros k Hk. destruct (decide (fmt = k)) as [->|Hne].
      - rewrite lookup_insert_eq. by eexists.
      - rewrite lookup_insert_ne by done. apply Hm. by right. }
    exists m'. split.
    { simpl. unfold thumbs_append at 1. by rewrite Hl. }
    intros k. rewrite Hm'. simpl count_occ.
    destruct (string_dec fmt k) as [->|Hne].
    + rewrite lookup_insert_eq, Hl. simpl. by rewrite <-app_assoc.
    + by rewrite lookup_insert_ne.
Qed.

Lemma size_loop_any (g : string → string → string)
    (sizes : list (Z * option Z * string)) fmts m :
  (∀ fmt, fmt ∈ fmts → is_Some (m !! fmt)) →
  ∃ m', for_opt sizes
          (λ thumbs '(width, height, suffix),
             for_opt fmts
               (λ thumbs fmt, thumbs_append thumbs fmt (g suffix fmt)) thumbs)
          m = Some m'
    ∧ ∀ k, m' !! k
           = (λ l, l ++ (sizes ≫= λ entry,
                           replicate (count_occ string_dec fmts k) (g entry.2 k)))
             <$> m !! k.
Proof.
  revert m. induction sizes as [|[[width height] suffix] sizes IH]; intros m Hm.
  - exists m. split; [done |]. intros k.
    destruct (m !! k); simpl; by rewrite ?app_nil_r.
  - destruct (format_loop_any (g suffix) fmts m Hm) as (m1 & Hrun1 & Hm1).
    destruct (IH m1) as (m' & Hrun & Hm').
    { intros k Hk. rewrite Hm1. destruct (Hm k Hk) as [l ->]. by eexists. }
    exists m'. split; [simpl; by rewrite Hrun1 |].
    intros k. rewrite Hm', Hm1.
    destruct (m !! k); simpl; [|done]. by rewrite <-app_assoc.
Qed.

Lemma get_thumbnail_paths_lookup (original_path : string) fmts :
  let s := Path.stem (Path.of_string original_path) in
  let d := Path.parent (Path.of_string original_path) in
  ∃ thumbs,
    get_thumbnail_paths original_path (Some fmts) = Some thumbs
    ∧ ∀ k, thumbs !! k
           = if decide (k ∈ fmts)
             then Some (THUMBNAIL_SIZES ≫= λ entry,
                          replicate (count_occ string_dec fmts k)
                            (Path.str (d </: thumb_name s entry.2 k)))
             else None.
Proof.
  intros s d.
  set (g := λ suffix fmt, Path.str (d </: thumb_name s suffix fmt)).
  set (m0 := foldl (λ m fmt, <[fmt := []]> m) (∅ : gmap string (list string)) fmts).
  assert (∀ k, m0 !! k = if decide (k ∈ fmts) then Some [] else None) as Hm0.
  { intros k. unfold m0. by rewrite init_lookup, lookup_empty. }
  destruct (size_loop_any g THUMBNAIL_SIZES fmts m0) as (thumbs & Hrun & Hth).
  { intros k Hk. rewrite Hm0, decide_True by done. by eexists. }
  exists thumbs. split; [exact Hrun |].
  intros k. rewrite Hth, Hm0. by destruct (decide (k ∈ fmts)).
Qed.

End path_table_any.

(** [get_thumbnail_paths] never raises, whatever the format list: the keys
    are the formats that occur in the list (none for the empty list, which
    is not replaced by the default), and a format that occurs [n] times
    gets each of its four paths [n] times in a row. *)
Theorem get_thumbnail_paths_any_formats
    (original_path : string) (fmts : list string) :
  let s := Path.stem (Path.of_string original_path) in
  let d := Path.parent (Path.of_string original_path) in
  ∃ thumbs,
    get_thumbnail_paths original_path (Some fmts) = Some thumbs
    ∧ dom thumbs = list_to_set fmts
    ∧ ∀ k, k ∈ fmts →
        ∃ paths,
          thumbs !! k = Some paths
          ∧ paths = (THUMBNAIL_SIZES ≫= λ entry,
                       replicate (count_occ string_dec fmts k)
                         (Path.str (d </: thumb_name s entry.2 k)))
          ∧ length paths = (4 * count_occ string_dec fmts k)%nat.
Proof.
  intros s d.
  destruct (get_thumbnail_paths_lookup original_path fmts) as (thumbs & Hrun & Hth).
  exists thumbs. split_and!; [done | |].
  - apply set_eq. intros k. rewrite elem_of_dom, elem_of_list_to_set, Hth.
    destruct (decide (k ∈ fmts)); [by split; eauto |].
    split; [by intros [? ?] | done].
  - intros k Hk. rewrite Hth, decide_True by done.
    eexists. split; [done |]. split; [done |].
    unfold THUMBNAIL_SIZES. simpl. rewrite !length_app, !length_replicate.
    simpl. lia.
Qed.

(** The path strings [get_thumbnail_paths] reports for the resolved
    original (default formats) read back as exactly the paths at which a
    successful [generate_thumbnails] has put the thumbnails, size by size
    and format by format. *)
Theorem get_thumbnail_paths_generated `{Pillow}
    (e : env) (w w' : world) (original_path static_dir : PurePath) (keep : bool) :
  Path.wf original_path = true → Path.wf static_dir = true →
  generate_thumbnails original_path static_dir keep e w = (Return true, w') →
  let p := resolve original_path static_dir in
  ∃ thumbs img,
    get_thumbnail_paths (Path.str p) None = Some thumbs
    ∧ (∀ fmt, fmt ∈ ["webp"; "avif"; "jpg"] →
         thumbs !! fmt
         = Some ((λ entry, Path.str (thumb_path p entry.2 fmt)) <$> THUMBNAIL_SIZES))
    ∧ (∀ entry fmt, entry ∈ THUMBNAIL_SIZES → fmt ∈ ["webp"; "avif"; "jpg"] →
         Path.of_string (Path.str (thumb_path p entry.2 fmt))
         = thumb_path p entry.2 fmt)
    ∧ (∀ entry, entry ∈ THUMBNAIL_SIZES → thumbs_written e img p keep entry w w').
Proof.
  intros Ho Hs Hrun p.
  assert (Path.wf p = true) as Hp by (by apply resolve_wf).
  destruct (generate_thumbnails_written e w original_path static_dir keep w' Ho Hs Hrun)
    as (f & src & img & _ & _ & _ & _ & Hth & _).
  destruct (get_thumbnail_paths_lookup (Path.str p) default_formats)
    as (thumbs & Hget & Hlook).
  rewrite (of_string_str p Hp) in Hlook.
  exists thumbs, img. split_and!; [exact Hget | | | exact Hth].
  - intros fmt Hfmt. rewrite Hlook. unfold default_formats.
    rewrite decide_True by done.
    rewrite !elem_of_cons, elem_of_nil in Hfmt.
    destruct Hfmt as [->|[->|[->|[]]]]; reflexivity.
  - intros entry fmt He Hfmt. apply of_string_str.
    apply join_str_wf; [by apply parent_wf |]. by apply thumb_path_good.
Qed.

Lemma get_thumbnail_paths_generated_witness :
  let e := Env true (λ _ _, None) (λ _, None) in
  let src := Raster.solid "RGB" (2000, 1500) [10; 20; 30] in
  let p := Path.of_string "/srv/static/uploads/photos/abc123.jpg" in
  let w := @World Raster.pillow {[ p := @Upload Raster.pillow (Some src) ]} [] in
  ∃ w' thumbs,
    @generate_thumbnails Raster.pillow
      (Path.of_string "uploads/photos/abc123.jpg")
      (Path.of_string "/srv/static") true e w = (Return true, w')
    ∧ get_thumbnail_paths "/srv/static/uploads/photos/abc123.jpg" None = Some thumbs
    ∧ thumbs !! "webp"
      = Some ((λ entry, Path.str (thumb_path p entry.2 "webp")) <$> THUMBNAIL_SIZES).
Proof.
  intros e src p w.
  destruct (@generate_thumbnails_runs Raster.pillow e w
              (Path.of_string "uploads/photos/abc123.jpg")
              (Path.of_string "/srv/static") true
              (@Upload Raster.pillow (Some src)) src src)
    as (w' & Hrun & _); try reflexivity.
  destruct (@get_thumbnail_paths_generated Raster.pillow e w w'
              (Path.of_string "uploads/photos/abc123.jpg")
              (Path.of_string "/srv/static") true eq_refl eq_refl Hrun)
    as (thumbs & img & Hget & Hfmt & _).
  exists w', thumbs. split; [exact Hrun |]. split; [exact Hget |].
  apply Hfmt. by left.
Defined.

(** ** What [generate_thumbnails] leaves alone *)

Section generate_frame.
Context `{Pillow}.

Implicit Types (e : env) (w : world) (p q : PurePath) (keep : bool).

Lemma generate_all_frame e w p keep q :
  ¬ derived_path p q →
  files (generate_all p keep e w).2 !! q = files w !! q.
Proof.
  intros Hq.
  assert (q ≠ carousel_path p) as Hc by (intros ->; apply Hq; by left).
  assert (¬ thumb_path_of p THUMBNAIL_SIZES q) as Ht
    by (intros Ht; apply Hq; by right).
  unfold generate_all. munfold.
  destruct (Image_open_cases p e w) as [(f & src & _ & _ & ->)|[x ->]]; [|done].
  destruct (normalize src) as [img|x]; [|done].
  destruct (save_error e "WEBP" (carousel_path p)) as [x|]; [done |].
  cbn [files logged].
  match goal with
  | |- context [for_each ?l ?b e ?w0] =>
      pose proof (thumbs_loop_frame e img p keep l w0 q Ht) as Hloop;
      destruct (for_each l b e w0) as [[[]|x] w2]
  end; simpl in *; rewrite Hloop; by rewrite lookup_insert_ne.
Qed.

Lemma generate_thumbnails_frame e w original static keep q :
  ¬ derived_path (resolve original static) q →
  files (generate_thumbnails original static keep e w).2 !! q = files w !! q.
Proof.
  intros Hq. unfold generate_thumbnails. set (p := resolve original static) in *.
  munfold.
  destruct (HAS_PILLOW e); simpl; [|done].
  destruct (bool_decide (is_Some (files w !! p))); simpl; [|done].
  destruct (is_image_processable p); simpl; [|done].
  pose proof (generate_all_frame e w p keep q Hq) as Hall.
  destruct (generate_all p keep e w) as [[b|x] w1]; simpl in *; done.
Qed.


End generate_frame.





(** ** What the cleanup removes *)

Section cleanup_facts.
Context `{Pillow}.

Implicit Types (e : env) (w : world) (p q : PurePath) (n : Z).

Lemma derived_path_dec p q : Decision (derived_path p q).
Proof.
  destruct (decide (q = carousel_path p)) as [Hc|Hc]; [left; by left |].
  destruct (thumb_path_of_dec p THUMBNAIL_SIZES q) as [Ht|Ht]; [left; by right |].
  right. by intros [?|?].
Qed.

(** The cleanup only removes, only derived paths, and counts what it
    removes. *)
Lemma delete_thumbnails_shrinks e w original static :
  let p := resolve original static in
  is_Some (files w !! p) →
  ∃ n w1,
    delete_thumbnails original static e w
    = (Return true,
       World (files w1)
         (logged w1 ++ [(INFO, "Deleted " +:+ pretty n
                               +:+ " thumbnail variants for: " +:+ Path.str p)]))
    ∧ (∀ q, ¬ derived_path p q → files w1 !! q = files w !! q)
    ∧ (∀ q fl, files w1 !! q = Some fl → files w !! q = Some fl)
    ∧ Z.of_nat (base.size (files w)) = Z.of_nat (base.size (files w1)) + n
    ∧ 0 ≤ n.
Proof.
  intros p Hp.
  set (I := λ (n : Z) (w1 : world),
         (∀ q, ¬ derived_path p q → files w1 !! q = files w !! q)
         ∧ (∀ q fl, files w1 !! q = Some fl → files w !! q = Some fl)
         ∧ Z.of_nat (base.size (files w)) = Z.of_nat (base.size (files w1)) + n
         ∧ 0 ≤ n).
  destruct (delete_thumbnails_found e I original static w)
    as (n & w1 & HI & Hrun); [|done| |].
  - intros n w1 q Hq (H1 & H2 & H3 & H4).
    destruct (files w1 !! q) as [fl|] eqn:Hfl; [|done].
    destruct (unlink_error e q) as [x|]; intros msg; unfold I; simpl; [done |].
    split_and!.
    + intros q' Hq'. rewrite lookup_delete_ne; [by apply H1 |].
      by intros ->.
    + intros q' fl' Hq'. apply H2.
      destruct (decide (q = q')) as [->|Hne].
      * by rewrite lookup_delete_eq in Hq'.
      * by rewrite lookup_delete_ne in Hq'.
    + rewrite map_size_delete, Hfl. simpl.
      assert (base.size (files w1) ≠ 0%nat).
      { intros Hz. apply map_size_empty_iff in Hz.
        by rewrite Hz, lookup_empty in Hfl. }
      lia.
    + lia.
  - unfold I. split_and!; [done | done | lia | lia].
  - exists n, w1. by destruct HI as (? & ? & ? & ?).
Qed.

(** A loop whose steps only make paths disappear, each step clearing the
    paths of its element, clears the paths of all elements. *)
Lemma for_acc_clears {A S} (key : A → PurePath → Prop)
    (l : list A) (body : S → A → M S) e :
  (∀ s x w, x ∈ l →
     ∃ s' w', body s x e w = (Return s', w')
       ∧ (∀ q, files w !! q = None → files w' !! q = None)
       ∧ (∀ q, key x q → files w' !! q = None)) →
  ∀ s w,
    ∃ s' w', for_acc l body s e w = (Return s', w')
      ∧ (∀ q, files w !! q = None → files w' !! q = None)
      ∧ (∀ x q, x ∈ l → key x q → files w' !! q = None).
Proof.
  induction l as [|x l IH]; intros Hbody s w.
  - exists s, w. split_and!; [done | done |].
    intros x q Hx. by apply elem_of_nil in Hx.
  - destruct (Hbody s x w) as (s1 & w1 & Hrun & Hmono & Hkey); [by left |].
    destruct (IH (λ s x w Hx, Hbody s x w (list_elem_of_further _ _ _ Hx)) s1 w1)
      as (s' & w' & Hrun' & Hmono' & Hkey').
    exists s', w'. split_and!.
    + simpl. munfold. by rewrite Hrun.
    + auto.
    + intros y q [->|Hy]%elem_of_cons Hq; [|by eauto]. auto.
Qed.

Lemma delete_thumb_clears e q n w :
  unlink_error e q = None →
  ∃ n' w', delete_thumb q n e w = (Return n', w')
    ∧ (∀ q', files w !! q' = None → files w' !! q' = None)
    ∧ files w' !! q = None.
Proof.
  intros Hok. rewrite delete_thumb_run, Hok.
  destruct (files w !! q) as [fl|] eqn:Hq.
  - eexists _, _. split_and!; [done | | by simpl; rewrite lookup_delete_eq].
    intros q' Hq'. simpl. destruct (decide (q = q')) as [->|Hne].
    + by rewrite lookup_delete_eq.
    + by rewrite lookup_delete_ne.
  - by eexists _, _.
Qed.

Lemma delete_carousel_clears e q n w :
  unlink_error e q = None →
  ∃ n' w', delete_carousel q n e w = (Return n', w')
    ∧ (∀ q', files w !! q' = None → files w' !! q' = None)
    ∧ files w' !! q = None.
Proof.
  intros Hok. rewrite delete_carousel_run, Hok.
  destruct (files w !! q) as [fl|] eqn:Hq.
  - eexists _, _. split_and!; [done | | by simpl; rewrite lookup_delete_eq].
    intros q' Hq'. simpl. destruct (decide (q = q')) as [->|Hne].
    + by rewrite lookup_delete_eq.
    + by rewrite lookup_delete_ne.
  - by eexists _, _.
Qed.

(** With unlink working on the derived paths, none of them is left. *)
Lemma delete_thumbnails_clears e w original static :
  let p := resolve original static in
  is_Some (files w !! p) →
  (∀ q, derived_path p q → unlink_error e q = None) →
  ∀ w', (delete_thumbnails original static e w).2 = w' →
  ∀ q, derived_path p q → files w' !! q = None.
Proof.
  intros p Hp Hok w' <- q Hq.
  destruct (delete_carousel_clears e (carousel_path p) 0 w)
    as (n1 & w1 & Hrun1 & Hmono1 & Hgone1); [apply Hok; by left |].
  destruct (for_acc_clears
              (λ (entry : Z * option Z * string) q,
                 ∃ fmt, fmt ∈ cleanup_formats ∧ q = thumb_path p entry.2 fmt)
              THUMBNAIL_SIZES
              (λ deleted_count '(width, height, suffix),
                 for_acc ["webp"; "avif"; "jpg"]
                   (λ deleted_count fmt,
                      delete_thumb (thumb_path p suffix fmt) deleted_count)
                   deleted_count) e) with (s := n1) (w := w1)
    as (n2 & w2 & Hrun2 & Hmono2 & Hgone2).
  { intros s [[width height] suffix] w0 He.
    destruct (for_acc_clears (λ fmt q, q = thumb_path p suffix fmt)
                ["webp"; "avif"; "jpg"]
                (λ deleted_count fmt,
                   delete_thumb (thumb_path p suffix fmt) deleted_count) e)
      with (s := s) (w := w0) as (s' & w' & Hrun & Hmono & Hgone).
    { intros s0 fmt w3 Hfmt.
      destruct (delete_thumb_clears e (thumb_path p suffix fmt) s0 w3)
        as (n' & w' & Hrun & Hmono & Hgone).
      { apply Hok. right. by exists (width, height, suffix), fmt. }
      exists n', w'. split_and!; [done | done |]. by intros q0 ->. }
    exists s', w'. split_and!; [done | done |].
    intros q0 (fmt & Hfmt & ->). by apply (Hgone fmt). }
  unfold delete_thumbnails. fold p. munfold.
  rewrite bool_decide_eq_true_2 by done. cbv beta iota delta [negb].
  rewrite Hrun1. cbv beta iota. rewrite Hrun2. simpl.
  destruct Hq as [->|(entry & fmt & He & Hfmt & ->)].
  - by apply Hmono2.
  - apply (Hgone2 entry); [done |]. by exists fmt.
Qed.


End cleanup_facts.







(** ** Deleting the original with its derived files *)

Section delete_original_facts.
Context `{Pillow}.

Implicit Types (e : env) (w : world) (p q : PurePath).

Lemma delete_original_found e w original static :
  let p := resolve original static in
  Path.is_absolute p = true → Path.wf p = true →
  is_Some (files w !! p) →
  let w1 := (delete_thumbnails p static e w).2 in
  files w1 !! p = files w !! p
  ∧ delete_original_and_thumbnails original static e w
    = match unlink_error e p with
      | None =>
          (Return true,
           World (delete p (files w1))
             (logged w1 ++ [(INFO, "Deleted original image: " +:+ Path.str p)]))
      | Some x =>
          (Return false,
           World (files w1)
             (logged w1 ++ [(ERROR, "Error deleting original image: " +:+ x)]))
      end.
Proof.
  intros p Habs Hwf Hp w1.
  assert (resolve p static = p) as Hres by (by apply resolve_absolute).
  destruct (delete_thumbnails_shrinks e w p static) as (n & w2 & Hrun & Hframe & _).
  { by rewrite Hres. }
  rewrite Hres in Hframe.
  assert (files w1 !! p = files w !! p) as Hsame.
  { unfold w1. rewrite Hrun. simpl. by apply Hframe, original_not_derived. }
  split; [done |].
  unfold delete_original_and_thumbnails. fold p. munfold.
  destruct (delete_thumbnails p static e w) as [o w1'] eqn:Hdel.
  injection Hrun as -> Hw1. simpl in w1. subst w1.
  rewrite bool_decide_eq_true_2 by (by rewrite Hsame).
  unfold unlink. destruct Hp as [fl Hfl]. rewrite Hsame, Hfl.
  by destruct (unlink_error e p).
Qed.

Lemma delete_original_clears e w original static :
  let p := resolve original static in
  Path.wf p = true → Path.is_absolute p = true →
  is_Some (files w !! p) →
  unlink_error e p = None →
  (∀ q, derived_path p q → unlink_error e q = None) →
  let r := delete_original_and_thumbnails original static e w in
  r.1 = Return true
  ∧ files r.2 !! p = None
  ∧ (∀ q, derived_path p q → files r.2 !! q = None)
  ∧ (∀ q, q ≠ p → ¬ derived_path p q → files r.2 !! q = files w !! q).
Proof.
  intros p Hwf Habs Hp Hup Hok r.
  assert (resolve p static = p) as Hres by (by apply resolve_absolute).
  destruct (delete_original_found e w original static Habs Hwf Hp)
    as [Hsame Hrun].
  fold p in Hrun. rewrite Hup in Hrun. unfold r. rewrite Hrun. simpl.
  split_and!; [done | by rewrite lookup_delete_eq | |].
  - intros q Hq. rewrite lookup_delete_ne.
    + apply (delete_thumbnails_clears e w p static); rewrite ?Hres; done.
    + intros <-. by apply (original_not_derived p).
  - intros q Hne Hq. rewrite lookup_delete_ne by done.
    destruct (delete_thumbnails_shrinks e w p static)
      as (n & w2 & Hdel & Hframe & _); [by rewrite Hres |].
    rewrite Hdel. simpl. apply Hframe. by rewrite Hres.
Qed.

End delete_original_facts.





(** ** Generating and deleting compose *)

(** Round trip: where no derived file existed before, a successful
    [generate_thumbnails] followed by [delete_original_and_thumbnails] (with
    unlink working) leaves the filesystem as it was before the generation,
    minus the original. *)
Theorem generate_then_delete_round_trip `{Pillow}
    (e e' : env) (w w1 : world) (original_path static_dir : PurePath)
    (keep : bool) :
  let p := resolve original_path static_dir in
  Path.wf original_path = true → Path.wf static_dir = true →
  Path.is_absolute p = true →
  (∀ q, derived_path p q → files w !! q = None) →
  generate_thumbnails original_path static_dir keep e w = (Return true, w1) →
  unlink_error e' p = None →
  (∀ q, derived_path p q → unlink_error e' q = None) →
  let r := delete_original_and_thumbnails original_path static_dir e' w1 in
  r.1 = Return true ∧ files r.2 = delete p (files w).
Proof.
  intros p Ho Hs Habs Hnone Hgen Hup Hok r.
  assert (Path.wf p = true) as Hwf by (by apply resolve_wf).
  pose proof (generate_thumbnails_frame e w original_path static_dir keep) as Hframe.
  rewrite Hgen in Hframe. simpl in Hframe. fold p in Hframe.
  apply generate_thumbnails_true in Hgen as (_ & _ & f & _ & _ & Hf & _).
  fold p in Hf.
  assert (files w1 !! p = files w !! p) as Hsame
    by (by apply Hframe, original_not_derived).
  destruct (delete_original_clears e' w1 original_path static_dir)
    as (Hr & Hgone & Hder & Hother); try done.
  { fold p. rewrite Hsame, Hf. by eexists. }
  fold p r in Hr, Hgone, Hder, Hother.
  split; [done |]. apply map_eq. intros q.
  destruct (decide (q = p)) as [->|Hne].
  { by rewrite lookup_delete_eq. }
  rewrite lookup_delete_ne by done.
  destruct (derived_path_dec p q) as [Hq|Hq].
  - by rewrite Hder, Hnone.
  - rewrite Hother by done. by apply Hframe.
Qed.

Lemma generate_then_delete_round_trip_witness :
  let e := Env true (λ _ _, None) (λ _, None) in
  let src := Raster.solid "RGB" (2000, 1500) [10; 20; 30] in
  let p := Path.of_string "/srv/static/uploads/photos/abc123.jpg" in
  let w := @World Raster.pillow {[ p := @Upload Raster.pillow (Some src) ]} [] in
  ∃ w1,
    @generate_thumbnails Raster.pillow
      (Path.of_string "uploads/photos/abc123.jpg")
      (Path.of_string "/srv/static") true e w = (Return true, w1)
    ∧ files (@delete_original_and_thumbnails Raster.pillow
               (Path.of_string "uploads/photos/abc123.jpg")
               (Path.of_string "/srv/static") e w1).2
      = delete p (files w).
Proof.
  intros e src p w.
  destruct (@generate_thumbnails_runs Raster.pillow e w
              (Path.of_string "uploads/photos/abc123.jpg")
              (Path.of_string "/srv/static") true
              (@Upload Raster.pillow (Some src)) src src)
    as (w1 & Hrun & _); try reflexivity.
  exists w1. split; [exact Hrun |].
  refine (proj2 (@generate_then_delete_round_trip Raster.pillow e e w w1
                   (Path.of_string "uploads/photos/abc123.jpg")
                   (Path.of_string "/srv/static") true
                   eq_refl eq_refl eq_refl _ Hrun eq_refl (λ _ _, eq_refl))).
  intros q Hq. apply lookup_singleton_ne. intros <-.
  by apply (original_not_derived p).
Defined.

(** Regenerating overwrites in place: after a successful
    [generate_thumbnails], running it again in the same environment
    succeeds again and leaves every file as the first run left it. *)
Theorem generate_thumbnails_regenerate `{Pillow}
    (e : env) (w w1 : world) (original_path static_dir : PurePath) (keep : bool) :
  Path.wf original_path = true → Path.wf static_dir = true →
  generate_thumbnails original_path static_dir keep e w = (Return true, w1) →
  ∃ w2,
    generate_thumbnails original_path static_dir keep e w1 = (Return true, w2)
    ∧ files w2 = files w1.
Proof.
  intros Ho Hs Hgen. set (p := resolve original_path static_dir).
  assert (Path.wf p = true) as Hwf by (by apply resolve_wf).
  pose proof (generate_thumbnails_frame e w original_path static_dir keep) as Hframe.
  rewrite Hgen in Hframe. simpl in Hframe. fold p in Hframe.
  destruct (generate_thumbnails_written e w original_path static_dir keep w1 Ho Hs Hgen)
    as (f & src & img & Hf & Hd & Hn & Hcar & Hth & _).
  fold p in Hf, Hcar, Hth.
  apply generate_thumbnails_true in Hgen
    as (Hlib & Hproc & f' & src' & img' & Hf' & Hd' & Hn' & Hc & Hok & _).
  fold p in Hproc, Hf', Hc, Hok.
  assert (files w1 !! p = Some f) as Hf1.
  { rewrite Hframe; [done |]. by apply original_not_derived. }
  destruct (generate_thumbnails_runs e w1 original_path static_dir keep f src img)
    as (w2 & Hgen2 & _); try done.
  exists w2. split; [done |].
  destruct (generate_thumbnails_written e w1 original_path static_dir keep w2 Ho Hs Hgen2)
    as (f2 & src2 & img2 & Hf2 & Hd2 & Hn2 & Hcar2 & Hth2 & Hframe2 & _).
  fold p in Hf2, Hcar2, Hth2, Hframe2.
  assert (img2 = img) as -> by congruence.
  apply map_eq. intros q.
  destruct (decide (q = carousel_path p)) as [->|Hqc]; [by rewrite Hcar, Hcar2 |].
  destruct (thumb_path_of_dec p THUMBNAIL_SIZES q) as [Hqt|Hqt];
    [|by apply Hframe2].
  destruct Hqt as (entry & fmt & He & Hfmt & ->).
  destruct (Hth entry He) as (Hw1 & Hj1 & Ha1).
  destruct (Hth2 entry He) as (Hw2 & Hj2 & Ha2).
  unfold cleanup_formats in Hfmt. rewrite !elem_of_cons, elem_of_nil in Hfmt.
  destruct Hfmt as [->|[->|[->|[]]]].
  - by rewrite Hw1, Hw2.
  - destruct (save_error e "AVIF" _); [by destruct Ha2 | by rewrite Ha1, Ha2].
  - destruct keep; [by rewrite Hj1, Hj2 | done].
Qed.

Lemma generate_thumbnails_regenerate_witness :
  let e := Env true (λ _ _, None) (λ _, None) in
  let src := Raster.solid "RGB" (2000, 1500) [10; 20; 30] in
  let p := Path.of_string "/srv/static/uploads/photos/abc123.jpg" in
  let w := @World Raster.pillow {[ p := @Upload Raster.pillow (Some src) ]} [] in
  ∃ w1 w2,
    @generate_thumbnails Raster.pillow
      (Path.of_string "uploads/photos/abc123.jpg")
      (Path.of_string "/srv/static") true e w = (Return true, w1)
    ∧ @generate_thumbnails Raster.pillow
        (Path.of_string "uploads/photos/abc123.jpg")
        (Path.of_string "/srv/static") true e w1 = (Return true, w2)
    ∧ files w2 = files w1.
Proof.
  intros e src p w.
  destruct (@generate_thumbnails_runs Raster.pillow e w
              (Path.of_string "uploads/photos/abc123.jpg")
              (Path.of_string "/srv/static") true
              (@Upload Raster.pillow (Some src)) src src)
    as (w1 & Hrun & _); try reflexivity.
  destruct (@generate_thumbnails_regenerate Raster.pillow e w w1
              (Path.of_string "uploads/photos/abc123.jpg")
              (Path.of_string "/srv/static") true eq_refl eq_refl Hrun)
    as (w2 & Hrun2 & Hsame).
  exists w1, w2. split; [exact Hrun |]. split; [exact Hrun2 | exact Hsame].
Defined.

(** ** The return value of [generate_thumbnails] *)

(** [generate_thumbnails] returns [True] exactly when the library is
    present, the resolved original exists, has a processable extension
    and decodes, and the WEBP save of the carousel copy and the mandatory
    saves of every size (WEBP, and JPEG when kept) do not raise; the AVIF
    encoder has no say. *)
Theorem generate_thumbnails_true_iff `{PillowLaws}
    (e : env) (w : world) (original_path static_dir : PurePath) (keep : bool) :
  Path.wf original_path = true → Path.wf static_dir = true →
  let p := resolve original_path static_dir in
  (generate_thumbnails original_path static_dir keep e w).1 = Return true
  ↔ HAS_PILLOW e = true
    ∧ is_image_processable p = true
    ∧ (∃ f src, files w !! p = Some f ∧ decoded f = Some src)
    ∧ save_error e "WEBP" (carousel_path p) = None
    ∧ (∀ entry, entry ∈ THUMBNAIL_SIZES →
         save_error e "WEBP" (thumb_path p entry.2 "webp") = None
         ∧ (keep = true →
            save_error e "JPEG" (thumb_path p entry.2 "jpg") = None)).
Proof.
  intros Ho Hs p. split.
  - intros Hrun.
    destruct (generate_thumbnails original_path static_dir keep e w)
      as [o w'] eqn:Hgen. simpl in Hrun. subst o.
    apply generate_thumbnails_true in Hgen
      as (Hlib & Hproc & f & src & img & Hf & Hd & Hn & Hc & Hok & _).
    fold p in Hproc, Hf, Hc, Hok.
    split_and!; try done; [by eauto |].
    intros entry He. specialize (Hok entry He). unfold size_ok in Hok.
    apply andb_true_iff in Hok as [Hwebp Hjpg].
    apply bool_decide_eq_true in Hwebp. split; [done |].
    intros ->. simpl in Hjpg. by apply bool_decide_eq_true in Hjpg.
  - intros (Hlib & Hproc & (f & src & Hf & Hd) & Hc & Hok).
    destruct (normalize_returns src) as (img & Hn & _).
    destruct (generate_thumbnails_runs e w original_path static_dir keep f src img)
      as (w' & Hgen & _); try done; [|by rewrite Hgen].
    intros entry He. destruct (Hok entry He) as [Hwebp Hjpg].
    unfold size_ok. rewrite (bool_decide_eq_true_2 _ Hwebp). simpl.
    destruct keep; [|done]. simpl. by rewrite bool_decide_eq_true_2 by auto.
Qed.

Lemma generate_thumbnails_true_iff_witness :
  let e := Env true (λ fmt _, if String.eqb fmt "AVIF" then Some "no encoder" else None)
               (λ _, None) in
  let src := Raster.solid "LA" (300, 200) [10; 255] in
  let p := Path.of_string "/srv/static/uploads/photos/abc123.png" in
  let w := @World Raster.pillow {[ p := @Upload Raster.pillow (Some src) ]} [] in
  (@generate_thumbnails Raster.pillow
     (Path.of_string "uploads/photos/abc123.png") (Path.of_string "/srv/static")
     false e w).1 = Return true.
Proof.
  intros e src p w.
  apply (@generate_thumbnails_true_iff Raster.pillow raster_laws e w
           (Path.of_string "uploads/photos/abc123.png")
           (Path.of_string "/srv/static") false eq_refl eq_refl).
  split_and!; try reflexivity.
  - exists (@Upload Raster.pillow (Some src)), src. split; reflexivity.
  - intros entry He. split; [reflexivity | discriminate].
Defined.

(** ** The colour normalisation *)

(** Normalising is idempotent: the normalised image is in mode [RGB] and
    normalising it again returns it as it is. *)
Theorem normalize_idempotent `{PillowLaws} (src : image) :
  ∃ img, normalize src = Return img ∧ normalize img = Return img.
Proof.
  destruct (normalize_cases src) as (img & Hn & Hm & _).
  exists img. split; [done |].
  destruct (normalize_cases img) as (img' & Hn' & _ & _ & Hrgb & _).
  by rewrite Hn', (Hrgb Hm).
Qed.

Lemma normalize_idempotent_witness :
  let src := Raster.solid "P" (30, 20) [7] in
  ∃ img, @normalize Raster.pillow src = Return img
    ∧ @normalize Raster.pillow img = Return img.
Proof. intros src. apply (@normalize_idempotent Raster.pillow raster_laws src). Defined.

(** ** Resolving against the base directory *)

(** Resolving twice is resolving once as soon as the base directory or
    the original is absolute; then [delete_original_and_thumbnails] cleans
    up the derived files of the very original it goes on to delete. *)
Theorem resolve_twice `{Pillow}
    (e : env) (w : world) (original_path static_dir : PurePath) :
  Path.is_absolute static_dir = true ∨ Path.is_absolute original_path = true →
  resolve (resolve original_path static_dir) static_dir
  = resolve original_path static_dir
  ∧ delete_thumbnails (resolve original_path static_dir) static_dir e w
    = delete_thumbnails original_path static_dir e w.
Proof.
  intros Habs.
  assert (Path.is_absolute (resolve original_path static_dir) = true) as Hp.
  { unfold resolve. destruct (Path.is_absolute original_path) eqn:Ho; [done |].
    destruct Habs as [Hs|?]; [|done]. simpl.
    unfold Path.joinpath. rewrite Ho. done. }
  pose proof (resolve_absolute _ _ Hp) as Hres.
  split; [done |]. unfold delete_thumbnails. by rewrite Hres.
Qed.

Lemma resolve_twice_witness :
  resolve (resolve (Path.of_string "uploads/a.jpg") (Path.of_string "/srv/static"))
    (Path.of_string "/srv/static")
  = Path.of_string "/srv/static/uploads/a.jpg".
Proof.
  exact (proj1 (@resolve_twice Raster.pillow (Env true (λ _ _, None) (λ _, None))
                  (@World Raster.pillow ∅ [])
                  (Path.of_string "uploads/a.jpg") (Path.of_string "/srv/static")
                  (or_introl eq_refl))).
Defined.

(** ** Without the legacy format *)

Section without_legacy.
Context `{Pillow}.

Implicit Types (e : env) (w : world) (p q : PurePath).

Lemma generate_size_frame_no_legacy e img p entry w q :
  q ≠ thumb_path p entry.2 "webp" →
  q ≠ thumb_path p entry.2 "avif" →
  files (generate_size img p false entry e w).2 !! q = files w !! q.
Proof.
  intros Hw Ha. destruct entry as [[width height] suffix]. simpl in *.
  unfold generate_size. munfold.
  repeat (case_match; simplify_eq; simpl); by rewrite ?lookup_insert_ne.
Qed.

Lemma thumbs_loop_frame_no_legacy e img p l w q :
  (∀ entry, entry ∈ l →
     q ≠ thumb_path p entry.2 "webp" ∧ q ≠ thumb_path p entry.2 "avif") →
  files (for_each l (generate_size img p false) e w).2 !! q = files w !! q.
Proof.
  revert w. induction l as [|entry l IH]; intros w Hq; [done |].
  destruct (Hq entry) as [Hw Ha]; [by left |].
  pose proof (generate_size_frame_no_legacy e img p entry w q Hw Ha) as Hframe.
  simpl. munfold.
  destruct (generate_size img p false entry e w) as [[[]|x] w1]; simpl in *.
  - rewrite IH; [done |]. intros entry' He'. apply Hq. by right.
  - done.
Qed.

End without_legacy.

(** With [keep_original_format] false no JPEG is written, whatever the
    outcome of the call: every [.jpg] thumbnail path keeps what it had, a
    stale file from an earlier run included. *)
Theorem generate_thumbnails_no_legacy `{Pillow}
    (e : env) (w : world) (original_path static_dir : PurePath)
    (entry : Z * option Z * string) :
  Path.wf original_path = true → Path.wf static_dir = true →
  entry ∈ THUMBNAIL_SIZES →
  let p := resolve original_path static_dir in
  files (generate_thumbnails original_path static_dir false e w).2
    !! thumb_path p entry.2 "jpg"
  = files w !! thumb_path p entry.2 "jpg".
Proof.
  intros Ho Hs He p.
  assert (Path.wf p = true) as Hp by (by apply resolve_wf).
  destruct cleanup_formats_elems as (Hwebp & Havif & Hjpg).
  set (q := thumb_path p entry.2 "jpg").
  assert (q ≠ carousel_path p) as Hc.
  { intros Heq. symmetry in Heq. by apply carousel_not_thumb in Heq. }
  assert (∀ entry', entry' ∈ THUMBNAIL_SIZES →
            q ≠ thumb_path p entry'.2 "webp" ∧ q ≠ thumb_path p entry'.2 "avif")
    as Hq.
  { intros entry' He'. split; intros Heq;
      by apply thumb_path_inj in Heq as [_ [=]]. }
  unfold generate_thumbnails. fold p. munfold.
  destruct (HAS_PILLOW e); simpl; [|done].
  destruct (bool_decide (is_Some (files w !! p))); simpl; [|done].
  destruct (is_image_processable p); simpl; [|done].
  unfold generate_all. munfold.
  destruct (Image_open_cases p e w) as [(f & src & _ & _ & ->)|[x ->]]; [|done].
  destruct (normalize src) as [img|x]; [|done].
  destruct (save_error e "WEBP" (carousel_path p)) as [x|]; [done |].
  cbn [files logged].
  match goal with
  | |- context [for_each ?l ?b e ?w0] =>
      pose proof (thumbs_loop_frame_no_legacy e img p l w0 q Hq) as Hloop;
      destruct (for_each l b e w0) as [[[]|x] w2]
  end; simpl in *; rewrite Hloop; by rewrite lookup_insert_ne.
Qed.

Lemma generate_thumbnails_no_legacy_witness :
  let e := Env true (λ _ _, None) (λ _, None) in
  let src := Raster.solid "RGB" (2000, 1500) [10; 20; 30] in
  let p := Path.of_string "/srv/static/uploads/photos/abc123.jpg" in
  let w := @World Raster.pillow {[ p := @Upload Raster.pillow (Some src) ]} [] in
  files (@generate_thumbnails Raster.pillow
           (Path.of_string "uploads/photos/abc123.jpg")
           (Path.of_string "/srv/static") false e w).2
    !! Path.of_string "/srv/static/uploads/photos/abc123-thumb-md.jpg"
  = None.
Proof.
  intros e src p w.
  exact (@generate_thumbnails_no_legacy Raster.pillow e w
           (Path.of_string "uploads/photos/abc123.jpg")
           (Path.of_string "/srv/static") (220, Some 220, "thumb-md")
           eq_refl eq_refl (list_elem_of_further _ _ _ (list_elem_of_here _ _))).
Defined.
